(** * Multicall: batching calls into one aggregated request

    A shallow embedding of the Go package [multicall] (files [call.go] and
    [multicall.go]) and the properties of its call unit, aggregator,
    chunker and batch driver.

    Go values that the package only moves around (ABI values, reflect
    types, addresses, call options) are abstract.  Pointers are locations
    of a store, so that the in-place mutation of [*Call] values and of the
    output structs they point to is visible, together with aliasing.  A Go
    panic is an outcome of its own, next to a normal return. *)

From stdpp Require Import base option list gmap strings pretty.
From Stdlib Require Import ZArith Lia Strings.Byte.

Open Scope string_scope.
Open Scope Z_scope.
Open Scope list_scope.

(** ** Slices *)

(** [s[lo:hi]] on a slice whose capacity equals its length.  Go panics
    unless [0 <= lo <= hi <= cap(s)]; [None] stands for that panic. *)
Definition slice {T} (s : list T) (lo hi : Z) : option (list T) :=
  if (0 <=? lo) && (lo <=? hi) && (hi <=? Z.of_nat (length s))
  then Some (take (Z.to_nat (hi - lo)) (drop (Z.to_nat lo) s))
  else None.

(** ** The chunker ([chunkInputs], multicall.go) *)

(** The counted loop [for i := 0; i < chunkCount; i++], run over the list of
    the values [i] takes. *)
Fixpoint chunk_loop {T} (inputs : list T) (chunkSize : Z) (idx : list Z)
    (chunks : list (list T)) : option (list (list T)) :=
  match idx with
  | [] => Some chunks
  | i :: idx' =>
      let start := i * chunkSize in
      let end_ := start + chunkSize in
      c ← slice inputs start end_;
      chunk_loop inputs chunkSize idx' (chunks ++ [c])
  end.

(** Go's [/] and [%] on [int] truncate towards zero: [Z.quot], [Z.rem].
    All intermediate values are bounded by [len(inputs)], so the 64-bit
    arithmetic of [int] never wraps. *)
Definition chunkInputs {T} (chunkSize : Z) (inputs : list T)
    : option (list (list T)) :=
  let n := Z.of_nat (length inputs) in
  if n =? 0 then Some []
  else if (chunkSize <=? 0) || (n <? 2) || (chunkSize >? n) then Some [inputs]
  else
    let lastChunkSize := Z.rem n chunkSize in
    let chunkCount := Z.quot n chunkSize in
    chunks ← chunk_loop inputs chunkSize (seqZ 0 chunkCount) [];
    if lastChunkSize >? 0 then
      let start := chunkCount * chunkSize in
      let end_ := start + lastChunkSize in
      c ← slice inputs start end_;
      Some (chunks ++ [c])
    else Some chunks.

(** ** Data model (call.go) *)

(** Pointers are locations; a location that the store does not map is the
    nil pointer. *)
Definition loc := positive.

(** [[]byte] *)
Definition bytes := list byte.

Section Model.
(** Types of go-ethereum that the package passes along without looking
    inside: ABI values ([any]), [reflect.Type], [common.Address],
    [*bind.CallOpts]. *)
Context {value gotype Address CallOpts : Type}.

(** The two methods of [*abi.ABI] the package uses.  Go returns a pair
    (result, error); [inl msg] is a non-nil error with [Error() = msg]. *)
Record ABI := mkABI {
  abi_Pack : string → list value → string + bytes;
  abi_Unpack : string → bytes → string + list value
}.

(** [NewContract] refuses a nil ABI: [abi] is never nil. *)
Record Contract := mkContract {
  abi : ABI;
  address : Address
}.

(** One field of an output struct as [reflect] sees it: its type,
    whether its name is exported, and the value it holds. *)
Record field := mkField {
  field_Type : gotype;
  field_exported : bool;
  field_value : value
}.

(** What the [Outputs any] of a call holds. *)
Inductive outputs :=
| OutPointer (l : loc)        (* a pointer to a struct, nil when [l] is not allocated *)
| OutStruct (fs : list field) (* a struct stored by value: its fields are not addressable *)
| OutOther.                   (* nil, or a value of any other kind *)

Record Call := mkCall {
  CallName : string;
  CallContract : option Contract;   (* [*Contract], [None] is nil *)
  Method : string;
  Inputs : list value;
  Outputs : outputs;
  CanFail : bool;
  Failed : bool
}.

Definition set_Failed (b : bool) (c : Call) : Call :=
  mkCall (CallName c) (CallContract c) (Method c) (Inputs c) (Outputs c)
         (CanFail c) b.

Definition set_field_value (v : value) (f : field) : field :=
  mkField (field_Type f) (field_exported f) v.

(** Modelled from the spec: the request and response tuples of the remote
    aggregation capability (package [contract], generated bindings of
    Multicall3): (target identity, fault-tolerance flag, encoded payload)
    and (success flag, returned payload).  The field names are those the
    aggregator uses. *)
Record Multicall3Call3 := mkCall3 {
  Target : Address;
  AllowFailure : bool;
  CallData : bytes
}.

Record Multicall3Result := mkResult {
  Success : bool;
  ReturnData : bytes
}.

(** ** Effects *)

(** What leaves the process: an aggregated remote call, a pause. *)
Inductive event :=
| EvAggregate3 (opts : CallOpts) (multiCalls : list Multicall3Call3)
| EvSleep (d : Z).

Record state := mkState {
  calls_heap : gmap loc Call;            (* the [*Call] pointees *)
  structs_heap : gmap loc (list field);  (* the output structs *)
  trace : list event
}.

Inductive panic :=
| PanicNilCall                        (* nil [*Call] dereferenced *)
| PanicNilContract                    (* nil [*Contract] dereferenced *)
| PanicCallsIndex (i n : nat)         (* [calls[i]], [len(calls) = n] *)
| PanicOutIndex (i n : nat)           (* [out[i]], [len(out) = n] *)
| PanicFieldIndex (i n : nat)         (* [t.Field(i)], [t.NumField() = n] *)
| PanicConvert                        (* [abi.ConvertType] panics *)
| PanicSet                            (* [reflect.Value.Set]: unaddressable or unexported *)
| PanicSlice.                         (* slice bounds out of range *)

Inductive result (A : Type) :=
| Done (a : A) (σ : state)
| Panic (p : panic) (σ : state).
Global Arguments Done {A} a σ.
Global Arguments Panic {A} p σ.

(** Computations over the store that may panic. *)
Definition M (A : Type) : Type := state → result A.

Global Instance M_ret : MRet M := λ A a σ, Done a σ.
Global Instance M_bind : MBind M := λ A B f m σ,
  match m σ with
  | Done a σ' => f a σ'
  | Panic p σ' => Panic p σ'
  end.

Definition panic_with {A} (p : panic) : M A := λ σ, Panic p σ.

Definition final_state {A} (r : result A) : state :=
  match r with Done _ σ => σ | Panic _ σ => σ end.

(** [*call] *)
Definition load_call (p : loc) : M Call := λ σ,
  match calls_heap σ !! p with
  | Some c => Done c σ
  | None => Panic PanicNilCall σ
  end.

(** [call.Failed = b] *)
Definition store_Failed (p : loc) (b : bool) : M unit := λ σ,
  match calls_heap σ !! p with
  | Some c =>
      Done () (mkState (<[p := set_Failed b c]> (calls_heap σ))
                       (structs_heap σ) (trace σ))
  | None => Panic PanicNilCall σ
  end.

(** [call.Contract.abi], [call.Contract.address] *)
Definition deref_contract (c : Call) : M Contract :=
  match CallContract c with
  | Some k => mret k
  | None => panic_with PanicNilContract
  end.

(** ** Call.Unpack (call.go) *)

(** The struct [t] that [Unpack] works on after its two kind checks. *)
Inductive dest :=
| DestHeap (l : loc)          (* reached through a pointer: addressable *)
| DestValue (fs : list field). (* copied into the interface: not addressable *)

(** [reflect.ValueOf(call.Outputs)], [Elem] when it is a pointer, and
    the test [t.Kind() != reflect.Struct]; [None] when the test fails. *)
Definition struct_of (h : gmap loc (list field)) (o : outputs) : option dest :=
  match o with
  | OutPointer l =>
      match h !! l with
      | Some _ => Some (DestHeap l)
      | None => None
      end
  | OutStruct fs => Some (DestValue fs)
  | OutOther => None
  end.

Definition reflect_struct (o : outputs) : M (option dest) := λ σ,
  Done (struct_of (structs_heap σ) o) σ.

(** The fields of [t] as they are now. *)
Definition fields_of (h : gmap loc (list field)) (d : dest) : list field :=
  match d with
  | DestHeap l => default [] (h !! l)
  | DestValue fs => fs
  end.

Definition dest_fields (d : dest) : M (list field) := λ σ,
  Done (fields_of (structs_heap σ) d) σ.

Definition store_struct (l : loc) (fs : list field) : M unit := λ σ,
  Done () (mkState (calls_heap σ) (<[l := fs]> (structs_heap σ)) (trace σ)).

(** [abi.ConvertType(v, reflect.New(ty).Interface())] followed by [Elem]:
    the value to store in a field of type [ty], [None] when go-ethereum
    panics because [v] does not fit. *)
Context (ConvertType : value → gotype → option value).

(** One iteration of the field loop. *)
Definition unpack_field (d : dest) (out : list value) (i : nat) : M unit :=
  fs ← dest_fields d;
  match fs !! i with
  | None => panic_with (PanicFieldIndex i (length fs))
  | Some f =>
      match out !! i with
      | None => panic_with (PanicOutIndex i (length out))
      | Some v =>
          match ConvertType v (field_Type f) with
          | None => panic_with PanicConvert
          | Some converted =>
              match d with
              | DestHeap l =>
                  if field_exported f
                  then store_struct l (<[i := set_field_value converted f]> fs)
                  else panic_with PanicSet
              | DestValue _ => panic_with PanicSet
              end
          end
      end
  end.

(** [for i := 0; i < fieldCount; i++], over the values of [i]. *)
Fixpoint unpack_fields (d : dest) (out : list value) (idx : list nat) : M unit :=
  match idx with
  | [] => mret ()
  | i :: idx' => unpack_field d out i;; unpack_fields d out idx'
  end.

(** The result is Go's [error]: [None] is nil. *)
Definition Unpack (p : loc) (b : bytes) : M (option string) :=
  call ← load_call p;
  t ← reflect_struct (Outputs call);
  match t with
  | None => mret (Some "outputs type is not a struct")
  | Some d =>
      k ← deref_contract call;
      match abi_Unpack (abi k) (Method call) b with
      | inl err =>
          mret (Some ("failed to unpack '" +:+ Method call +:+ "' outputs: " +:+ err))
      | inr out =>
          fs ← dest_fields d;
          let fieldCount := length fs in
          unpack_fields d out (seq 0 fieldCount);;
          mret None
      end
  end.

(** ** Call.Pack (call.go) *)

Definition Pack (p : loc) : M (string + bytes) :=
  call ← load_call p;
  k ← deref_contract call;
  match abi_Pack (abi k) (Method call) (Inputs call) with
  | inl err =>
      mret (inl ("failed to pack '" +:+ Method call +:+ "' inputs: " +:+ err))
  | inr b => mret (inr b)
  end.

(** ** Caller.Call (multicall.go) *)

(** [caller.contract.Aggregate3]: the remote aggregation capability.  Its
    answer may depend on everything that was exchanged before. *)
Context (Aggregate3 : list event → CallOpts → list Multicall3Call3 →
                      string + list Multicall3Result).

Definition aggregate3 (opts : CallOpts) (multiCalls : list Multicall3Call3)
    : M (string + list Multicall3Result) := λ σ,
  Done (Aggregate3 (trace σ) opts multiCalls)
       (mkState (calls_heap σ) (structs_heap σ)
                (trace σ ++ [EvAggregate3 opts multiCalls])).

(** The first loop of [Call]: [for i, call := range calls]. *)
Fixpoint pack_loop (i : nat) (calls : list loc)
    (multiCalls : list Multicall3Call3) : M (string + list Multicall3Call3) :=
  match calls with
  | [] => mret (inr multiCalls)
  | p :: rest =>
      r ← Pack p;
      match r with
      | inl err =>
          mret (inl ("failed to pack call inputs at index [" +:+ pretty i
                     +:+ "]: " +:+ err))
      | inr b =>
          call ← load_call p;
          k ← deref_contract call;
          pack_loop (S i) rest
            (multiCalls ++ [mkCall3 (address k) (CanFail call) b])
      end
  end.

(** The second loop of [Call]: [for i, result := range results]. *)
Fixpoint demux_loop (calls : list loc) (i : nat)
    (results : list Multicall3Result) : M (option string) :=
  match results with
  | [] => mret None
  | result :: rest =>
      match calls !! i with
      | None => panic_with (PanicCallsIndex i (length calls))
      | Some p =>
          store_Failed p (negb (Success result));;
          call ← load_call p;
          if Failed call then demux_loop calls (S i) rest
          else
            err ← Unpack p (ReturnData result);
            match err with
            | Some e =>
                mret (Some ("failed to unpack call outputs at index ["
                            +:+ pretty i +:+ "]: " +:+ e))
            | None => demux_loop calls (S i) rest
            end
      end
  end.

Definition Caller_Call (opts : CallOpts) (calls : list loc)
    : M (list loc * option string) :=
  packed ← pack_loop 0 calls [];
  match packed with
  | inl e => mret (calls, Some e)
  | inr multiCalls =>
      r ← aggregate3 opts multiCalls;
      match r with
      | inl err => mret (calls, Some ("multicall failed: " +:+ err))
      | inr results =>
          e ← demux_loop calls 0 results;
          mret (calls, e)
      end
  end.

(** ** Caller.CallChunked (multicall.go) *)

Definition sleep (d : Z) : M unit := λ σ,
  Done () (mkState (calls_heap σ) (structs_heap σ) (trace σ ++ [EvSleep d])).

(** [if i > 0 && cooldown > 0 { time.Sleep(cooldown) }] *)
Definition pause (i : nat) (cooldown : Z) : M unit :=
  if (0 <? i)%nat && (0 <? cooldown) then sleep cooldown else mret ().

(** [for i, chunk := range chunkInputs(chunkSize, calls)] *)
Fixpoint chunked_loop (opts : CallOpts) (cooldown : Z) (calls : list loc)
    (i : nat) (chunks : list (list loc)) (allCalls : list loc)
    : M (list loc * option string) :=
  match chunks with
  | [] => mret (allCalls, None)
  | chunk :: rest =>
      pause i cooldown;;
      r ← Caller_Call opts chunk;
      match r.2 with
      | Some e =>
          mret (calls, Some ("call chunk [" +:+ pretty i +:+ "] failed: " +:+ e))
      | None => chunked_loop opts cooldown calls (S i) rest (allCalls ++ r.1)
      end
  end.

Definition CallChunked (opts : CallOpts) (chunkSize : Z) (cooldown : Z)
    (calls : list loc) : M (list loc * option string) :=
  match chunkInputs chunkSize calls with
  | None => panic_with PanicSlice
  | Some chunks => chunked_loop opts cooldown calls 0 chunks []
  end.

(** ** Vocabulary of the statements *)

(** What [reflect] never changes in a struct: the types of its fields and
    whether they are exported. *)
Definition shape (fs : list field) : list (gotype * bool) :=
  (λ f, (field_Type f, field_exported f)) <$> fs.

(** [σ'] differs from [σ] at most in the failure flags of the units in
    [P] and in the structs that these units have as output destination;
    no unit changes anything but its flag, no struct changes shape. *)
Record touches (P : list loc) (σ σ' : state) : Prop := mkTouches {
  touches_calls : ∀ q, q ∉ P → calls_heap σ' !! q = calls_heap σ !! q;
  touches_flag : ∀ q, option_Forall2 (λ c c', ∃ b, c' = set_Failed b c)
                        (calls_heap σ !! q) (calls_heap σ' !! q);
  touches_structs : ∀ l,
    (∀ q c, q ∈ P → calls_heap σ !! q = Some c → Outputs c ≠ OutPointer l) →
    structs_heap σ' !! l = structs_heap σ !! l;
  touches_shape : ∀ l, option_Forall2 (λ fs fs', shape fs' = shape fs)
                         (structs_heap σ !! l) (structs_heap σ' !! l)
}.

(** [σ'] differs from [σ] at most in the values held by the fields of
    the struct that [d] designates. *)
Record only_struct (d : dest) (σ σ' : state) : Prop := mkOnlyStruct {
  only_calls : calls_heap σ' = calls_heap σ;
  only_trace : trace σ' = trace σ;
  only_other : ∀ l, d ≠ DestHeap l → structs_heap σ' !! l = structs_heap σ !! l;
  only_shape : ∀ l, option_Forall2 (λ fs fs', shape fs' = shape fs)
                      (structs_heap σ !! l) (structs_heap σ' !! l)
}.

(** The state once [call.Failed = b] has been executed on the unit [p],
    which held [c]. *)
Definition flagged (p : loc) (b : bool) (c : Call) (σ : state) : state :=
  mkState (<[p := set_Failed b c]> (calls_heap σ)) (structs_heap σ) (trace σ).

(** The state once the request [multiCalls] has been sent. *)
Definition sent (opts : CallOpts) (multiCalls : list Multicall3Call3)
    (σ : state) : state :=
  mkState (calls_heap σ) (structs_heap σ)
          (trace σ ++ [EvAggregate3 opts multiCalls]).

(** Every unit of [calls] packs, the request is [multiCalls], and the
    remote aggregated call succeeds with [results]. *)
Definition dispatched (opts : CallOpts) (calls : list loc) (σ : state)
    (multiCalls : list Multicall3Call3) (results : list Multicall3Result)
    : Prop :=
  pack_loop 0 calls [] σ = Done (inr multiCalls) σ
  ∧ Aggregate3 (trace σ) opts multiCalls = inr results.

(** The chunks [chunks], numbered from [i], are dispatched one after the
    other from [σ] to [σ'], each dispatch returning without error; [cks]
    are the lists the dispatches return. *)
Inductive chunks_ok (opts : CallOpts) (cooldown : Z)
    : nat → list (list loc) → list (list loc) → state → state → Prop :=
| chunks_ok_nil i σ : chunks_ok opts cooldown i [] [] σ σ
| chunks_ok_cons i chunk rest ck cks σ σ0 σ1 σ2 :
    pause i cooldown σ = Done () σ0 →
    Caller_Call opts chunk σ0 = Done (ck, None) σ1 →
    chunks_ok opts cooldown (S i) rest cks σ1 σ2 →
    chunks_ok opts cooldown i (chunk :: rest) (ck :: cks) σ σ2.

End Model.

(** ** A small instance

    ABI values are integers, every contract has the same toy codec, and the
    remote capability is a stub.  Used to run the model on concrete
    dispatches. *)

Module Toy.

Inductive ty := TInt | TString.

(** Integers fit integer fields only. *)
Definition convert (v : Z) (t : ty) : option Z :=
  match t with TInt => Some v | TString => None end.

Definition byte_of_Z (v : Z) : byte := default x00 (Byte.of_N (Z.to_N v)).
Definition Z_of_byte (b : byte) : Z := Z.of_N (Byte.to_N b).

(** One byte per value; the method [bad] is not in the interface and an
    empty payload does not decode. *)
Definition codec : @ABI Z :=
  mkABI (λ method inputs,
           if String.eqb method "bad" then inl "method 'bad' not found"
           else inr (byte_of_Z <$> inputs))
        (λ method data,
           match data with
           | [] => inl "abi: attempting to unmarshal an empty string"
           | _ => inr (Z_of_byte <$> data)
           end).

Definition token : @Contract Z nat := mkContract codec 7%nat.

(** A unit calling [method] with [inputs], writing to the struct at [l]. *)
Definition unit_ (method : string) (inputs : list Z) (l : loc) (canFail : bool)
    : @Call Z ty nat :=
  mkCall "" (Some token) method inputs (OutPointer l) canFail false.

Definition int_field (v : Z) : @field Z ty := mkField TInt true v.

(** The stub answers each entry with its own payload, reports the entries
    marked fault-tolerant as failed, and reverts once [budget] exchanges
    have taken place.  Call options are the budget. *)
Definition answer (m : @Multicall3Call3 nat) : Multicall3Result :=
  mkResult (negb (AllowFailure m)) (CallData m).

Definition remote (tr : list (@event nat nat)) (budget : nat)
    (multiCalls : list (@Multicall3Call3 nat)) : string + list Multicall3Result :=
  if (length tr <? budget)%nat then inr (answer <$> multiCalls)
  else inl "execution reverted".

(** Stubs that break the positional contract: one entry too many, one
    entry too few. *)
Definition remote_long (tr : list (@event nat nat)) (budget : nat)
    (multiCalls : list (@Multicall3Call3 nat)) : string + list Multicall3Result :=
  inr ((answer <$> multiCalls) ++ [mkResult false []]).

Definition remote_short (tr : list (@event nat nat)) (budget : nat)
    (multiCalls : list (@Multicall3Call3 nat)) : string + list Multicall3Result :=
  inr (answer <$> removelast multiCalls).

(** Three units reading three balances into three one-field structs;
    the second unit is a parameter. *)
Definition three (u2 : @Call Z ty nat) : @state Z ty nat nat :=
  mkState
    (<[1%positive := unit_ "balanceOf" [10] 11%positive false]>
       (<[2%positive := u2]>
          (<[3%positive := unit_ "balanceOf" [30] 13%positive false]> ∅)))
    (<[11%positive := [int_field 0]]>
       (<[12%positive := [int_field 0]]>
          (<[13%positive := [int_field 0]]> ∅)))
    [].

Definition u2 : @Call Z ty nat := unit_ "balanceOf" [20] 12%positive false.
Definition u2_tolerant : @Call Z ty nat := unit_ "balanceOf" [20] 12%positive true.
Definition u2_bad : @Call Z ty nat := unit_ "bad" [20] 12%positive false.
Definition u2_empty : @Call Z ty nat := unit_ "balanceOf" [] 12%positive false.

Definition st3 := three u2.
Definition units : list loc := [1; 2; 3]%positive.

(** The request and the response for [three u]. *)
Definition request (u : @Call Z ty nat) : list (@Multicall3Call3 nat) :=
  [mkCall3 7%nat false [byte_of_Z 10];
   mkCall3 7%nat (CanFail u) (byte_of_Z <$> Inputs u);
   mkCall3 7%nat false [byte_of_Z 30]].

Definition response (u : @Call Z ty nat) : list Multicall3Result :=
  answer <$> request u.

(** One unit whose output struct has two fields. *)
Definition st_two : @state Z ty nat nat :=
  mkState (<[1%positive := unit_ "balanceOf" [10] 11%positive false]> ∅)
          (<[11%positive := [int_field 0; int_field 0]]> ∅)
          [].

End Toy.

(** ** The builders of a call unit (call.go) *)

Section Builders.
Context {value gotype Address CallOpts : Type}.

Definition set_CallName (n : string) (c : @Call value gotype Address)
    : @Call value gotype Address :=
  mkCall n (CallContract c) (Method c) (Inputs c) (Outputs c)
         (CanFail c) (Failed c).

Definition set_CanFail (b : bool) (c : @Call value gotype Address)
    : @Call value gotype Address :=
  mkCall (CallName c) (CallContract c) (Method c) (Inputs c) (Outputs c)
         b (Failed c).

(** [call.Name(name)]: writes through the pointer and returns it. *)
Definition Call_Name (p : loc) (name : string)
    : @M value gotype Address CallOpts loc := λ σ,
  match calls_heap σ !! p with
  | Some c =>
      Done p (mkState (<[p := set_CallName name c]> (calls_heap σ))
                      (structs_heap σ) (trace σ))
  | None => Panic PanicNilCall σ
  end.

(** [call.AllowFailure()] *)
Definition Call_AllowFailure (p : loc)
    : @M value gotype Address CallOpts loc := λ σ,
  match calls_heap σ !! p with
  | Some c =>
      Done p (mkState (<[p := set_CanFail true c]> (calls_heap σ))
                      (structs_heap σ) (trace σ))
  | None => Panic PanicNilCall σ
  end.

(** [σ] with the label of the unit [p], if there is one, set to [n]. *)
Definition relabel (p : loc) (n : string)
    (σ : @state value gotype Address CallOpts) : @state value gotype Address CallOpts :=
  mkState (alter (set_CallName n) p (calls_heap σ)) (structs_heap σ) (trace σ).

(** The outcome [r] with [g] applied to its final state. *)
Definition result_map {A} (g : @state value gotype Address CallOpts →
                               @state value gotype Address CallOpts)
    (r : @result value gotype Address CallOpts A)
    : @result value gotype Address CallOpts A :=
  match r with
  | Done a σ => Done a (g σ)
  | Panic x σ => Panic x (g σ)
  end.

(** The unit [p] packs to the request entry [m] in [σ]. *)
Definition packs_to (σ : @state value gotype Address CallOpts) (p : loc)
    (m : @Multicall3Call3 Address) : Prop :=
  ∃ c k b, calls_heap σ !! p = Some c ∧ CallContract c = Some k
           ∧ abi_Pack (abi k) (Method c) (Inputs c) = inr b
           ∧ m = mkCall3 (address k) (CanFail c) b.


(** The unit [p] writes to the struct at [l], which holds [fs], and the
    return bytes of [r] decode to [out], one value at least per field,
    each fitting its field. *)
Definition unit_ready (ConvertType : value → gotype → option value)
    (σ : @state value gotype Address CallOpts) (p : loc)
    (r : Multicall3Result) (l : loc) (fs : list (@field value gotype))
    (out : list value) : Prop :=
  ∃ c k, calls_heap σ !! p = Some c ∧ Outputs c = OutPointer l
         ∧ structs_heap σ !! l = Some fs ∧ CallContract c = Some k
         ∧ abi_Unpack (abi k) (Method c) (ReturnData r) = inr out
         ∧ (length fs ≤ length out)%nat
         ∧ ∀ i f v, fs !! i = Some f → out !! i = Some v →
                    field_exported f = true
                    ∧ is_Some (ConvertType v (field_Type f)).

(** [fs'] is [fs] with every field assigned from [out]. *)
Definition assigned (ConvertType : value → gotype → option value)
    (fs : list (@field value gotype)) (out : list value)
    (fs' : list (@field value gotype)) : Prop :=
  length fs' = length fs
  ∧ ∀ i f, fs !! i = Some f →
           ∃ v v', out !! i = Some v ∧ ConvertType v (field_Type f) = Some v'
                   ∧ fs' !! i = Some (set_field_value v' f).

End Builders.

(** ** Building a contract (call.go) *)

Section Construction.
Context {value Address MetaData : Type}.

(** [abi.JSON] of go-ethereum: the parsed interface or an error. *)
Context (abi_JSON : string → string + @ABI value).
(** The method [GetAbi] of [bind.MetaData] in go-ethereum: a pair
    ([*abi.ABI], error). *)
Context (GetAbi : MetaData → option (@ABI value) * option string).
(** The zero value of [common.Address]. *)
Context (zeroAddress : Address).

(** The fields [abi], [address], [err]. *)
Record ContractOptions := mkContractOptions {
  opt_abi : option (@ABI value);   (* [*abi.ABI], [None] is nil *)
  opt_address : Address;
  opt_err : option string          (* [error], [None] is nil *)
}.

(** [func(o *ContractOptions)]: the options after the call, [None] when
    the function panics. *)
Definition ContractOption : Type := ContractOptions → option ContractOptions.

Definition ParseABI (rawJson : string) : option (@ABI value) * option string :=
  match abi_JSON rawJson with
  | inl err => (None, Some ("failed to parse abi: " +:+ err))
  | inr parsed => (Some parsed, None)
  end.

Definition WithABI (a : option (@ABI value)) : ContractOption := λ o,
  Some (mkContractOptions a (opt_address o) (opt_err o)).

(** [abiMeta] is a [*bind.MetaData]; [GetAbi] locks a field of it, which
    panics on nil. *)
Definition WithABIMeta (abiMeta : option MetaData) : ContractOption := λ o,
  match abiMeta with
  | None => None
  | Some m =>
      let r := GetAbi m in
      Some (mkContractOptions r.1 (opt_address o) r.2)
  end.

Definition WithABIJSON (abiJSON : string) : ContractOption := λ o,
  let r := ParseABI abiJSON in
  Some (mkContractOptions r.1 (opt_address o) r.2).

Definition WithAddress (a : Address) : ContractOption := λ o,
  Some (mkContractOptions (opt_abi o) a (opt_err o)).

(** [for _, fn := range fns { fn(opts) }] *)
Fixpoint apply_options (fns : list ContractOption) (o : ContractOptions)
    : option ContractOptions :=
  match fns with
  | [] => Some o
  | fn :: rest => o' ← fn o; apply_options rest o'
  end.

(** The result is [None] for a panic, [inl msg] for [(nil, err)] and
    [inr k] for [(&Contract{...}, nil)]. *)
Definition NewContract (fns : list ContractOption)
    : option (string + @Contract value Address) :=
  opts ← apply_options fns (mkContractOptions None zeroAddress None);
  Some (match opt_err opts with
        | Some e => inl e
        | None =>
            match opt_abi opts with
            | None => inl "abi is required"
            | Some a => inr (mkContract a (opt_address opts))
            end
        end).

Definition NewContract2 (abiMeta : option MetaData) (a : Address)
    : option (string + @Contract value Address) :=
  NewContract [WithABIMeta abiMeta; WithAddress a].

(** An option that leaves [abi] and [err] alone, as [WithAddress] does. *)
Definition keeps_abi (fn : ContractOption) : Prop :=
  ∀ o, ∃ o', fn o = Some o' ∧ opt_abi o' = opt_abi o ∧ opt_err o' = opt_err o.

(** An option that leaves [err] alone, as [WithABI] and [WithAddress] do. *)
Definition keeps_err (fn : ContractOption) : Prop :=
  ∀ o, ∃ o', fn o = Some o' ∧ opt_err o' = opt_err o.

End Construction.

(** ** Building a caller ([New], multicall.go) *)

(** [DefaultAddress] *)
Definition DefaultAddress : string := "0xcA11bde05977b3631167028862bE2a173976CA11".

Section Connect.
(** [context.Context], the client behind [bind.ContractCaller],
    [common.Address], [contract.Interface]. *)
Context {Ctx Client Address Interface : Type}.

(** [ethclient.Dial] and [ethclient.DialContext]: a pair (client, error). *)
Context (Dial : string → option Client * option string).
Context (DialContext : Ctx → string → option Client * option string).
(** [common.HexToAddress] *)
Context (HexToAddress : string → Address).
(** Modelled from the spec: [contract.NewMulticallCaller] (package
    [contract], generated bindings of Multicall3), which binds the remote
    aggregation capability at a target identity over a client, or fails. *)
Context (NewMulticallCaller : Address → option Client → string + Interface).

Record Options := mkOptions {
  ctx : option Ctx;
  rpcURL : string;
  client : option Client;          (* [bind.ContractCaller], [None] is nil *)
  contractAddress : string
}.

(** [func(o *Options)] *)
Definition Option_ : Type := Options → Options.

Definition WithRPCURL (url : string) : Option_ := λ o,
  mkOptions (ctx o) url (client o) (contractAddress o).

Definition WithClient (c : option Client) : Option_ := λ o,
  mkOptions (ctx o) (rpcURL o) c (contractAddress o).

Definition WithContractAddress (a : string) : Option_ := λ o,
  mkOptions (ctx o) (rpcURL o) (client o) a.

(** Options that leave a field alone. *)
Definition keeps_client (fn : Option_) : Prop := ∀ o, client (fn o) = client o.
Definition keeps_rpcURL (fn : Option_) : Prop := ∀ o, rpcURL (fn o) = rpcURL o.
Definition keeps_ctx (fn : Option_) : Prop := ∀ o, ctx (fn o) = ctx o.
Definition keeps_contractAddress (fn : Option_) : Prop :=
  ∀ o, contractAddress (fn o) = contractAddress o.

(** [Caller] *)
Record Caller := mkCaller { contract : Interface }.

(** [for _, fn := range fns { fn(opts) }] from the initial options. *)
Definition configure (fns : list Option_) : Options :=
  foldl (λ o fn, fn o) (mkOptions None "" None DefaultAddress) fns.

(** The end of [New], once a client is there. *)
Definition bind_caller (opts : Options) : string + Caller :=
  match NewMulticallCaller (HexToAddress (contractAddress opts)) (client opts) with
  | inl err => inl err
  | inr c => inr (mkCaller c)
  end.

Definition New (fns : list Option_) : string + Caller :=
  let opts := configure fns in
  match client opts with
  | None =>
      if String.eqb (rpcURL opts) "" then inl "rpcURL is required"
      else
        let r := match ctx opts with
                 | None => Dial (rpcURL opts)
                 | Some c => DialContext c (rpcURL opts)
                 end in
        match r.2 with
        | Some err => inl err
        | None =>
            bind_caller (mkOptions (ctx opts) (rpcURL opts) r.1
                                   (contractAddress opts))
        end
  | Some _ => bind_caller opts
  end.

End Connect.

(** ** The small instance, continued *)

Module Toy2.
Import Toy.

(** Interface descriptions are strings; [good] parses to the toy codec,
    every other description is malformed. *)
Definition parse (json : string) : string + @ABI Z :=
  if String.eqb json "good" then inr codec
  else inl "invalid character".

(** Metadata is the description it wraps. *)
Definition get_abi (m : string) : option (@ABI Z) * option string :=
  match parse m with
  | inl e => (None, Some e)
  | inr a => (Some a, None)
  end.

(** Clients are numbers; only the endpoint [node] answers. *)
Definition dial (url : string) : option nat * option string :=
  if String.eqb url "node" then (Some 1%nat, None)
  else (None, Some "dial failed").

Definition dial_context (c : unit) (url : string) : option nat * option string :=
  (None, Some "context expired").

Definition hex (a : string) : nat := String.length a.

(** A caller is the target it is bound to and its client. *)
Definition new_caller (target : nat) (c : option nat) : string + (nat * option nat) :=
  match c with
  | None => inl "no client"
  | Some _ => inr (target, c)
  end.

(** One unit whose output struct has three fields. *)
Definition st_short : @state Z ty nat nat :=
  mkState (<[1%positive := unit_ "balanceOf" [10] 11%positive false]> ∅)
          (<[11%positive := [int_field 0; int_field 0; int_field 0]]> ∅)
          [].

(** A unit whose output is a struct held by value. *)
Definition st_value : @state Z ty nat nat :=
  mkState (<[1%positive := mkCall "" (Some token) "balanceOf" [10]
                             (OutStruct [int_field 0]) false false]> ∅)
          ∅ [].

End Toy2.

(** ** Chunker: properties *)

Section Chunker.
Context {T : Type}.
Implicit Types (inputs : list T) (chunks : list (list T)).

(** The [k]-th full chunk of width [sz], as a sub-list of the input. *)
Definition window (sz : nat) inputs (k : nat) : list T :=
  take sz (drop (k * sz) inputs).

Lemma slice_in_range inputs (lo hi : Z) :
  0 ≤ lo → lo ≤ hi → hi ≤ Z.of_nat (length inputs) →
  slice inputs lo hi
  = Some (take (Z.to_nat (hi - lo)) (drop (Z.to_nat lo) inputs)).
Proof.
  intros H0 H1 H2. unfold slice.
  destruct (Z.leb_spec 0 lo); [|lia].
  destruct (Z.leb_spec lo hi); [|lia].
  destruct (Z.leb_spec hi (Z.of_nat (length inputs))); [done|lia].
Qed.

Lemma slice_window inputs (sz k : nat) :
  (k * sz + sz ≤ length inputs)%nat →
  slice inputs (Z.of_nat k * Z.of_nat sz) (Z.of_nat k * Z.of_nat sz + Z.of_nat sz)
  = Some (window sz inputs k).
Proof.
  intros Hle. rewrite slice_in_range by nia.
  unfold window. do 3 f_equal; nia.
Qed.

Lemma chunk_loop_windows inputs (sz : nat) (ks : list nat) chunks :
  (∀ k, k ∈ ks → k * sz + sz ≤ length inputs)%nat →
  chunk_loop inputs (Z.of_nat sz) (Z.of_nat <$> ks) chunks
  = Some (chunks ++ (window sz inputs <$> ks)).
Proof.
  revert chunks. induction ks as [|k ks IH]; intros chunks Hin; simpl.
  - by rewrite app_nil_r.
  - rewrite slice_window by (apply Hin; left). simpl.
    rewrite IH by (intros k' Hk'; apply Hin; by right).
    by rewrite <- app_assoc.
Qed.

Lemma seqZ_of_nat (q : nat) : seqZ 0 (Z.of_nat q) = Z.of_nat <$> seq 0 q.
Proof.
  unfold seqZ. rewrite Nat2Z.id. apply list_fmap_ext.
  intros i x _. lia.
Qed.

Lemma concat_windows inputs (sz q : nat) :
  concat (window sz inputs <$> seq 0 q) = take (q * sz) inputs.
Proof.
  induction q as [|q IH].
  - done.
  - replace (S q * sz)%nat with (q * sz + sz)%nat by lia.
    rewrite seq_S, fmap_app, concat_app, IH, <- take_take_drop.
    simpl. by rewrite app_nil_r.
Qed.

Lemma length_window inputs (sz k : nat) :
  (k * sz + sz ≤ length inputs)%nat → length (window sz inputs k) = sz.
Proof.
  intros Hle. unfold window. rewrite length_take, length_drop. lia.
Qed.

(** What [chunkInputs] computes once its guards are passed. *)
Lemma chunkInputs_general (size : Z) inputs :
  let n := length inputs in
  let sz := Z.to_nat size in
  (2 ≤ n)%nat → 1 ≤ size ≤ Z.of_nat n →
  chunkInputs size inputs
  = Some ((window sz inputs <$> seq 0 (n / sz))
          ++ (if decide (n mod sz = 0)%nat then []
              else [drop (n / sz * sz) inputs])).
Proof.
  intros n sz Hn Hsize. unfold chunkInputs. fold n.
  assert (Hsz : size = Z.of_nat sz) by (subst sz; lia).
  assert (Hpos : (0 < sz)%nat) by lia.
  destruct (Z.eqb_spec (Z.of_nat n) 0) as [|_]; [lia|].
  destruct (Z.leb_spec size 0) as [|_]; [lia|].
  destruct (Z.ltb_spec (Z.of_nat n) 2) as [|_]; [lia|].
  destruct (Z.gtb_spec size (Z.of_nat n)) as [|_]; [lia|]. simpl.
  rewrite Hsz.
  rewrite Z.quot_div_nonneg, Z.rem_mod_nonneg by lia.
  rewrite <- Nat2Z.inj_div, <- Nat2Z.inj_mod.
  pose proof (Nat.div_mod_eq n sz) as Hdm.
  pose proof (Nat.mod_upper_bound n sz ltac:(lia)) as Hmod.
  rewrite seqZ_of_nat, chunk_loop_windows; last first.
  { intros k Hk. apply elem_of_seq in Hk. fold n. nia. }
  simpl. destruct (decide (n mod sz = 0)%nat) as [Hz|Hnz].
  - rewrite Hz. simpl. by rewrite app_nil_r.
  - destruct (Z.gtb_spec (Z.of_nat (n mod sz)) 0) as [_|]; [|lia].
    rewrite slice_in_range by (fold n; nia). simpl.
    do 3 f_equal.
    replace (Z.to_nat _) with (n mod sz)%nat by lia.
    replace (Z.to_nat _) with (n / sz * sz)%nat by lia.
    apply take_ge. rewrite length_drop. fold n. nia.
Qed.

End Chunker.

(** C3: for a list of [n ≥ 2] units and a chunk size with [1 ≤ size ≤ n],
    the chunker returns [n / size] chunks of exactly [size] units each, the
    [k]-th being the units [k*size .. k*size+size-1] of the input, followed
    by one chunk of the last [n mod size] units when that is not zero; the
    chunks concatenated in order are the input list. *)
Theorem chunkInputs_split {T} (size : Z) (inputs : list T) :
  let n := length inputs in
  let sz := Z.to_nat size in
  (2 ≤ n)%nat → 1 ≤ size ≤ Z.of_nat n →
  ∃ chunks,
    chunkInputs size inputs = Some chunks
    ∧ length chunks = (n / sz + (if decide (n mod sz = 0) then 0 else 1))%nat
    ∧ (∀ k, (k < n / sz)%nat →
         chunks !! k = Some (take sz (drop (k * sz) inputs))
         ∧ length (take sz (drop (k * sz) inputs)) = sz)
    ∧ ((n mod sz ≠ 0)%nat →
         chunks !! (n / sz)%nat = Some (drop (n / sz * sz) inputs)
         ∧ length (drop (n / sz * sz) inputs) = (n mod sz)%nat)
    ∧ concat chunks = inputs.
Proof.
  intros n sz Hn Hsize.
  assert (Hpos : (0 < sz)%nat) by (subst sz; lia).
  pose proof (Nat.div_mod_eq n sz) as Hdm.
  pose proof (Nat.mod_upper_bound n sz ltac:(lia)) as Hmod.
  exists ((window sz inputs <$> seq 0 (n / sz))
          ++ (if decide (n mod sz = 0)%nat then []
              else [drop (n / sz * sz) inputs])).
  split; [by apply chunkInputs_general|].
  assert (Hlen : length (window sz inputs <$> seq 0 (n / sz)) = (n / sz)%nat)
    by by rewrite length_fmap, length_seq.
  repeat split.
  - rewrite length_app, Hlen. by destruct (decide _).
  - rewrite lookup_app_l by lia.
    rewrite list_lookup_fmap, lookup_seq_lt by done. done.
  - apply (length_window inputs sz k). fold n. nia.
  - destruct (decide _); [done|].
    rewrite lookup_app_r by lia. by rewrite Hlen, Nat.sub_diag.
  - rewrite length_drop. fold n. lia.
  - rewrite concat_app, concat_windows.
    destruct (decide _) as [Hz|Hnz]; simpl.
    + rewrite app_nil_r. apply take_ge. fold n. lia.
    + rewrite app_nil_r. apply take_drop.
Qed.

Lemma chunkInputs_split_witness :
  ∃ chunks, chunkInputs 2 [1; 2; 3; 4; 5] = Some chunks
            ∧ concat chunks = [1; 2; 3; 4; 5].
Proof.
  destruct (chunkInputs_split 2 [1; 2; 3; 4; 5]) as (chunks & Heq & _ & _ & _ & Hcat).
  - simpl. lia.
  - simpl. lia.
  - exists chunks. split; [exact Heq | exact Hcat].
Defined.

(** C8: the chunker returns no chunk for an empty list; for a non-empty
    list it returns the whole list as its only chunk when [size ≤ 0], when
    the list has fewer than two units, or when [size] exceeds its length. *)
Theorem chunkInputs_no_split {T} (size : Z) (inputs : list T) :
  chunkInputs size (@nil T) = Some []
  ∧ (inputs ≠ [] →
     size ≤ 0 ∨ (length inputs < 2)%nat ∨ Z.of_nat (length inputs) < size →
     chunkInputs size inputs = Some [inputs]).
Proof.
  split; [done|]. intros Hne Hguard. unfold chunkInputs.
  destruct (Z.eqb_spec (Z.of_nat (length inputs)) 0) as [Hz|_].
  - destruct inputs; [done | simpl in Hz; lia].
  - destruct (Z.leb_spec size 0); [done|].
    destruct (Z.ltb_spec (Z.of_nat (length inputs)) 2); [done|].
    destruct (Z.gtb_spec size (Z.of_nat (length inputs))); [done|]. lia.
Qed.

Lemma chunkInputs_no_split_witness :
  chunkInputs (-1) [7; 8; 9] = Some [[7; 8; 9]]
  ∧ chunkInputs 4 [7; 8; 9] = Some [[7; 8; 9]]
  ∧ chunkInputs 1 [7] = Some [[7]].
Proof.
  split; [|split].
  - apply (chunkInputs_no_split (-1) [7; 8; 9]); [done | left; lia].
  - apply (chunkInputs_no_split 4 [7; 8; 9]); [done | right; right; simpl; lia].
  - apply (chunkInputs_no_split 1 [7]); [done | right; left; simpl; lia].
Defined.

(** ** The aggregator and the batch driver: properties *)

Section Properties.
Context {value gotype Address CallOpts : Type}.
Context (ConvertType : value → gotype → option value).
Context (Aggregate3 : list (@event Address CallOpts) → CallOpts →
                      list (@Multicall3Call3 Address) →
                      string + list Multicall3Result).

Abbreviation state := (@state value gotype Address CallOpts).
Abbreviation Call := (@Call value gotype Address).
Abbreviation Unpack := (Unpack (Address:=Address) (CallOpts:=CallOpts) ConvertType).
Abbreviation Pack := (@Pack value gotype Address CallOpts).
Abbreviation pack_loop := (@pack_loop value gotype Address CallOpts).
Abbreviation demux_loop := (demux_loop (Address:=Address) (CallOpts:=CallOpts) ConvertType).
Abbreviation Caller_Call := (Caller_Call ConvertType Aggregate3).
Abbreviation chunked_loop := (chunked_loop ConvertType Aggregate3).
Abbreviation CallChunked := (CallChunked ConvertType Aggregate3).

Implicit Types (σ : state) (p q : loc) (c : Call) (calls : list loc).

(** *** The monad *)

Ltac mred :=
  unfold mbind, M_bind, mret, M_ret, load_call, reflect_struct,
    deref_contract, panic_with, dest_fields; cbn beta iota.

Lemma bind_Done {A B} (m : M A) (f : A → M B) σ a σ' :
  m σ = Done a σ' → (m ≫= f) σ = f a σ'.
Proof. intros H. unfold mbind, M_bind. by rewrite H. Qed.

(** *** Pack reads only *)

Lemma Pack_inv p σ r σ' :
  Pack p σ = Done r σ' →
  σ' = σ ∧ ∃ c k, calls_heap σ !! p = Some c ∧ CallContract c = Some k
    ∧ r = match abi_Pack (abi k) (Method c) (Inputs c) with
          | inl err => inl ("failed to pack '" +:+ Method c +:+ "' inputs: " +:+ err)
          | inr b => inr b
          end.
Proof.
  unfold Pack, mbind, M_bind, mret, M_ret, load_call, deref_contract.
  destruct (calls_heap σ !! p) as [c|] eqn:Hc; [|done].
  destruct (CallContract c) as [k|] eqn:Hk; [|done]. simpl.
  intros Hr. assert (σ' = σ) as -> by (destruct (abi_Pack _ _ _); congruence).
  split; [done|]. exists c, k. split; [done|]. split; [done|].
  destruct (abi_Pack _ _ _); congruence.
Qed.

Lemma Pack_final p σ : final_state (Pack p σ) = σ.
Proof.
  unfold Pack, mbind, M_bind, load_call, deref_contract.
  destruct (calls_heap σ !! p) as [c|]; [|done].
  destruct (CallContract c) as [k|]; [|done]. simpl.
  by destruct (abi_Pack _ _ _).
Qed.

Lemma pack_loop_final i calls mc σ : final_state (pack_loop i calls mc σ) = σ.
Proof.
  revert i mc. induction calls as [|p calls IH]; intros i mc; [done|].
  simpl. unfold mbind at 1, M_bind at 1.
  pose proof (Pack_final p σ) as HP.
  destruct (Pack p σ) as [[e|b] σ1|x σ1] eqn:EP; simpl in HP; subst σ1; [done| |done].
  destruct (Pack_inv _ _ _ _ EP) as (_ & c & k & Hc & Hk & _).
  unfold mbind, M_bind, load_call, deref_contract. rewrite Hc, Hk. simpl.
  apply IH.
Qed.

(** The first unit that fails to pack ends the loop with its index. *)
Lemma pack_loop_fail i0 calls mc σ i p e :
  calls !! i = Some p →
  (∀ j q, (j < i)%nat → calls !! j = Some q → ∃ b, Pack q σ = Done (inr b) σ) →
  Pack p σ = Done (inl e) σ →
  pack_loop i0 calls mc σ
  = Done (inl ("failed to pack call inputs at index [" +:+ pretty (i0 + i)%nat
               +:+ "]: " +:+ e)) σ.
Proof.
  revert i0 i mc. induction calls as [|q calls IH]; intros i0 i mc Hi Hbefore Hp; [done|].
  destruct i as [|i]; simpl in *.
  - injection Hi as ->. rewrite (bind_Done _ _ _ _ _ Hp). by rewrite Nat.add_0_r.
  - destruct (Hbefore 0%nat q ltac:(lia) eq_refl) as [b Hq].
    rewrite (bind_Done _ _ _ _ _ Hq).
    destruct (Pack_inv _ _ _ _ Hq) as (_ & c & k & Hc & Hk & _).
    unfold mbind at 1, M_bind at 1, load_call. rewrite Hc.
    unfold mbind at 1, M_bind at 1, deref_contract. rewrite Hk. simpl.
    rewrite (IH (S i0) i); [by rewrite Nat.add_succ_r| done | | done].
    intros j q' Hj Hq'. apply (Hbefore (S j) q'); [lia | done].
Qed.

(** *** Frames *)

Lemma state_eta σ : mkState (calls_heap σ) (structs_heap σ) (trace σ) = σ.
Proof. by destruct σ. Qed.

Lemma shape_insert (fs : list (@field value gotype)) i f v :
  fs !! i = Some f → shape (<[i := set_field_value v f]> fs) = shape fs.
Proof.
  intros Hf. unfold shape. rewrite list_fmap_insert. simpl.
  apply list_insert_id. by rewrite list_lookup_fmap, Hf.
Qed.

Lemma shape_refl_heap (h : gmap loc (list (@field value gotype))) l :
  option_Forall2 (λ fs fs', shape fs' = shape fs) (h !! l) (h !! l).
Proof. destruct (h !! l); by constructor. Qed.

Lemma only_struct_refl d σ : only_struct d σ σ.
Proof. split; auto using shape_refl_heap. Qed.

Lemma only_struct_trans d σ1 σ2 σ3 :
  only_struct d σ1 σ2 → only_struct d σ2 σ3 → only_struct d σ1 σ3.
Proof.
  intros [C1 T1 O1 S1] [C2 T2 O2 S2]. split.
  - congruence.
  - congruence.
  - intros l Hl. rewrite O2, O1; auto.
  - intros l. specialize (S1 l). specialize (S2 l).
    destruct S1 as [fs1 fs2 E1|]; inversion S2 as [? fs3 E2|]; subst;
      constructor. congruence.
Qed.

(** A field assignment either panics before it writes or replaces one
    field value of the designated struct. *)
Lemma unpack_field_only d out i σ :
  only_struct d σ (final_state (unpack_field ConvertType d out i σ)).
Proof.
  unfold unpack_field, mbind, M_bind, dest_fields, panic_with, store_struct.
  destruct d as [l|fs0]; simpl.
  - destruct (structs_heap σ !! l) as [fs|] eqn:Hl; simpl;
      [|apply only_struct_refl].
    destruct (fs !! i) as [f|] eqn:Hf; [|apply only_struct_refl].
    destruct (out !! i) as [v|]; [|apply only_struct_refl].
    destruct (ConvertType v (field_Type f)) as [v'|]; [|apply only_struct_refl].
    destruct (field_exported f); [|apply only_struct_refl].
    split; simpl; [done | done | |].
    + intros l' Hne. apply lookup_insert_ne. congruence.
    + intros l'. destruct (decide (l = l')) as [<-|Hne].
      * rewrite lookup_insert_eq, Hl. constructor. by apply shape_insert.
      * rewrite lookup_insert_ne by done. apply shape_refl_heap.
  - destruct (fs0 !! i) as [f|]; [|apply only_struct_refl].
    destruct (out !! i) as [v|]; [|apply only_struct_refl].
    destruct (ConvertType v (field_Type f)); apply only_struct_refl.
Qed.

Lemma unpack_fields_only d out idx σ :
  only_struct d σ (final_state (unpack_fields ConvertType d out idx σ)).
Proof.
  revert σ. induction idx as [|i idx IH]; intros σ; simpl.
  - apply only_struct_refl.
  - unfold mbind, M_bind.
    pose proof (unpack_field_only d out i σ) as H1.
    destruct (unpack_field ConvertType d out i σ) as [[] σ1|x σ1]; simpl in H1.
    + eapply only_struct_trans; [exact H1 | apply IH].
    + exact H1.
Qed.

(** The panics of the field loop are its own. *)
Lemma unpack_fields_panic d out idx σ x σ' :
  unpack_fields ConvertType d out idx σ = Panic x σ' →
  ∀ i n, x ≠ PanicCallsIndex i n.
Proof.
  revert σ. induction idx as [|j idx IH]; intros σ; simpl; [done|].
  unfold mbind, M_bind.
  destruct (unpack_field ConvertType d out j σ) as [[] σ1|y σ1] eqn:E.
  - apply IH.
  - intros [= <- <-]. revert E.
    unfold unpack_field, mbind, M_bind, dest_fields, panic_with, store_struct.
    destruct d as [l|fs0]; simpl.
    + destruct (default [] (structs_heap σ !! l) !! j) as [f|]; [|congruence].
      destruct (out !! j) as [v|]; [|congruence].
      destruct (ConvertType v (field_Type f)); [|congruence].
      destruct (field_exported f); congruence.
    + destruct (fs0 !! j) as [f|]; [|congruence].
      destruct (out !! j) as [v|]; [|congruence].
      destruct (ConvertType v (field_Type f)); congruence.
Qed.

(** *** Unpack *)

Lemma Unpack_frame p b σ :
  ∃ d, only_struct d σ (final_state (Unpack p b σ))
       ∧ ∀ l, d = DestHeap l →
              ∃ c, calls_heap σ !! p = Some c ∧ Outputs c = OutPointer l.
Proof.
  unfold Unpack. mred.
  destruct (calls_heap σ !! p) as [c|] eqn:Hc;
    [|exists (DestValue []); split; [apply only_struct_refl | done]].
  destruct (struct_of (structs_heap σ) (Outputs c)) as [d|] eqn:Hd;
    [|exists (DestValue []); split; [apply only_struct_refl | done]].
  exists d. split.
  - destruct (CallContract c) as [k|]; mred; [|apply only_struct_refl].
    destruct (abi_Unpack (abi k) (Method c) b) as [err|out];
      [apply only_struct_refl|].
    match goal with
    | |- context [unpack_fields ConvertType d out ?idx σ] =>
        pose proof (unpack_fields_only d out idx σ) as H1;
        destruct (unpack_fields ConvertType d out idx σ) as [[] σ1|x σ1]
    end; exact H1.
  - intros l ->. exists c. split; [done|].
    destruct (Outputs c) as [l'| |]; simpl in Hd; [|done..].
    destruct (structs_heap σ !! l'); congruence.
Qed.

(** An error return of [Unpack] comes before the first field is written,
    and from one of its two guards. *)
Lemma Unpack_error_inv p b σ c e σ' :
  calls_heap σ !! p = Some c →
  Unpack p b σ = Done (Some e) σ' →
  σ' = σ
  ∧ ((struct_of (structs_heap σ) (Outputs c) = None
      ∧ e = "outputs type is not a struct")
     ∨ (∃ k err, CallContract c = Some k
                 ∧ abi_Unpack (abi k) (Method c) b = inl err
                 ∧ e = "failed to unpack '" +:+ Method c +:+ "' outputs: " +:+ err)).
Proof.
  intros Hc. unfold Unpack. mred. rewrite Hc.
  destruct (struct_of (structs_heap σ) (Outputs c)) as [d|].
  - destruct (CallContract c) as [k|]; mred; [|done].
    destruct (abi_Unpack (abi k) (Method c) b) as [err|out] eqn:Hu.
    + intros [= <- <-]. split; [done|]. right. by exists k, err.
    + match goal with
      | |- context [unpack_fields ConvertType d out ?idx σ] =>
          destruct (unpack_fields ConvertType d out idx σ) as [[] σ1|x σ1]
      end; done.
  - intros [= <- <-]. split; [done|]. by left.
Qed.

Lemma Unpack_error_state p b σ e σ' :
  Unpack p b σ = Done (Some e) σ' → σ' = σ.
Proof.
  intros H. destruct (calls_heap σ !! p) as [c|] eqn:Hc.
  - by destruct (Unpack_error_inv p b σ c e σ' Hc H).
  - revert H. unfold Unpack. mred. by rewrite Hc.
Qed.

Lemma Unpack_panic p b σ x σ' :
  Unpack p b σ = Panic x σ' → ∀ i n, x ≠ PanicCallsIndex i n.
Proof.
  unfold Unpack. mred.
  destruct (calls_heap σ !! p) as [c|]; [|congruence].
  destruct (struct_of (structs_heap σ) (Outputs c)) as [d|]; [|done].
  destruct (CallContract c) as [k|]; mred; [|congruence].
  destruct (abi_Unpack (abi k) (Method c) b) as [err|out]; [done|].
  match goal with
  | |- context [unpack_fields ConvertType d out ?idx σ] =>
      destruct (unpack_fields ConvertType d out idx σ) as [[] σ1|y σ1] eqn:E
  end; [done|].
  intros [= <- <-]. eapply unpack_fields_panic, E.
Qed.

Lemma Unpack_not_struct p b σ c :
  calls_heap σ !! p = Some c →
  struct_of (structs_heap σ) (Outputs c) = None →
  Unpack p b σ = Done (Some "outputs type is not a struct") σ.
Proof.
  intros Hc Hd. unfold Unpack, mbind, M_bind, load_call, reflect_struct.
  by rewrite Hc, Hd.
Qed.

Lemma Unpack_decode_error p b σ c d k err :
  calls_heap σ !! p = Some c →
  struct_of (structs_heap σ) (Outputs c) = Some d →
  CallContract c = Some k →
  abi_Unpack (abi k) (Method c) b = inl err →
  Unpack p b σ
  = Done (Some ("failed to unpack '" +:+ Method c +:+ "' outputs: " +:+ err)) σ.
Proof.
  intros Hc Hd Hk He.
  unfold Unpack, mbind, M_bind, load_call, reflect_struct, deref_contract.
  rewrite Hc, Hd, Hk. simpl. by rewrite He.
Qed.

Lemma unpack_fields_seq l out n a σ (cur : list (@field value gotype)) :
  structs_heap σ !! l = Some cur →
  (a + n ≤ length cur)%nat →
  (∀ i f, (a ≤ i < a + n)%nat → cur !! i = Some f →
          field_exported f = true
          ∧ ∃ v, out !! i = Some v ∧ is_Some (ConvertType v (field_Type f))) →
  ∃ cur',
    unpack_fields ConvertType (DestHeap l) out (seq a n) σ
    = Done () (mkState (calls_heap σ) (<[l := cur']> (structs_heap σ)) (trace σ))
    ∧ length cur' = length cur
    ∧ (∀ i, ¬ (a ≤ i < a + n)%nat → cur' !! i = cur !! i)
    ∧ (∀ i f, (a ≤ i < a + n)%nat → cur !! i = Some f →
         ∃ v v', out !! i = Some v ∧ ConvertType v (field_Type f) = Some v'
                 ∧ cur' !! i = Some (set_field_value v' f)).
Proof.
  revert a σ cur. induction n as [|n IH]; intros a σ cur Hl Hlen Hok.
  - exists cur. simpl. unfold mret, M_ret.
    rewrite insert_id by done. rewrite state_eta.
    split; [done|]. split; [done|]. split; [done|]. intros; lia.
  - destruct (lookup_lt_is_Some_2 cur a ltac:(lia)) as [f Hf].
    destruct (Hok a f ltac:(lia) Hf) as (Hexp & v & Hv & v' & Hv').
    set (cur1 := <[a := set_field_value v' f]> cur).
    set (σ1 := mkState (calls_heap σ) (<[l := cur1]> (structs_heap σ)) (trace σ)).
    assert (Hstep : unpack_field ConvertType (DestHeap l) out a σ = Done () σ1).
    { unfold unpack_field. mred. simpl. rewrite Hl. simpl.
      rewrite Hf, Hv, Hv', Hexp. done. }
    destruct (IH (S a) σ1 cur1) as (cur' & Hrun & Hlen' & Hout & Hin).
    + apply lookup_insert_eq.
    + unfold cur1. rewrite length_insert. lia.
    + intros i g Hi Hg. apply Hok; [lia|].
      unfold cur1 in Hg. by rewrite list_lookup_insert_ne in Hg by lia.
    + exists cur'. simpl. rewrite (bind_Done _ _ _ _ _ Hstep), Hrun.
      split; [|split; [|split]].
      * simpl. by rewrite insert_insert_eq.
      * rewrite Hlen'. apply length_insert.
      * intros i Hi. rewrite Hout by lia. apply list_lookup_insert_ne. lia.
      * intros i g Hi Hg. destruct (decide (i = a)) as [->|Hne].
        -- rewrite Hout by lia. exists v, v'.
           assert (g = f) as -> by congruence.
           split; [done|]. split; [done|].
           apply list_lookup_insert_eq. by eapply lookup_lt_Some.
        -- apply Hin; [lia|].
           unfold cur1. by rewrite list_lookup_insert_ne by done.
Qed.

(** C1 (amended): [Unpack] returns a descriptive error in two situations
    only, when the output destination is not a struct or a pointer to one
    and when the ABI decoder rejects the bytes, and whenever it returns an
    error nothing has been written.  It does not compare the number of
    fields with the number of decoded values and never reports a mismatch
    as an error: when the destination struct has no more fields than there
    are decoded values, its fields are exported and each value converts to
    the type of its field, every field [i] receives decoded value [i], the
    values beyond the last field are ignored, and [Unpack] returns nil. *)
Theorem Unpack_behaviour p b σ c :
  calls_heap σ !! p = Some c →
  (∀ e σ', Unpack p b σ = Done (Some e) σ' →
     σ' = σ
     ∧ ((struct_of (structs_heap σ) (Outputs c) = None
         ∧ e = "outputs type is not a struct")
        ∨ (∃ k err, CallContract c = Some k
                    ∧ abi_Unpack (abi k) (Method c) b = inl err
                    ∧ e = "failed to unpack '" +:+ Method c +:+ "' outputs: "
                          +:+ err)))
  ∧ (struct_of (structs_heap σ) (Outputs c) = None →
     Unpack p b σ = Done (Some "outputs type is not a struct") σ)
  ∧ (∀ d k err,
       struct_of (structs_heap σ) (Outputs c) = Some d →
       CallContract c = Some k →
       abi_Unpack (abi k) (Method c) b = inl err →
       Unpack p b σ
       = Done (Some ("failed to unpack '" +:+ Method c +:+ "' outputs: " +:+ err)) σ)
  ∧ (∀ l fs k out,
       Outputs c = OutPointer l →
       structs_heap σ !! l = Some fs →
       CallContract c = Some k →
       abi_Unpack (abi k) (Method c) b = inr out →
       (length fs ≤ length out)%nat →
       (∀ i f v, fs !! i = Some f → out !! i = Some v →
                 field_exported f = true
                 ∧ is_Some (ConvertType v (field_Type f))) →
       ∃ fs',
         Unpack p b σ
         = Done None (mkState (calls_heap σ) (<[l := fs']> (structs_heap σ))
                              (trace σ))
         ∧ length fs' = length fs
         ∧ ∀ i f, fs !! i = Some f →
             ∃ v v', out !! i = Some v
                     ∧ ConvertType v (field_Type f) = Some v'
                     ∧ fs' !! i = Some (set_field_value v' f)).
Proof.
  intros Hc. split; [|split; [|split]].
  - intros e σ'. by apply Unpack_error_inv.
  - by apply Unpack_not_struct.
  - intros d k err. by apply Unpack_decode_error.
  - intros l fs k out Ho Hl Hk Hout Hlen Hconv.
    destruct (unpack_fields_seq l out (length fs) 0 σ fs Hl ltac:(lia))
      as (fs' & Hrun & Hlen' & _ & Hin).
    { intros i f Hi Hf.
      destruct (lookup_lt_is_Some_2 out i ltac:(lia)) as [v Hv].
      destruct (Hconv i f v Hf Hv) as [He Hs]. eauto. }
    exists fs'. split; [|split; [done|]].
    + unfold Unpack. mred. rewrite Hc, Ho. simpl. rewrite Hl, Hk. mred.
      rewrite Hout. simpl. rewrite Hl. simpl. by rewrite Hrun.
    + intros i f Hf. apply Hin; [|done].
      apply lookup_lt_Some in Hf. lia.
Qed.

(** *** What a dispatch may touch *)

Lemma set_Failed_same c : set_Failed (Failed c) c = c.
Proof. by destruct c. Qed.

Lemma flag_refl_heap (h : gmap loc Call) q :
  option_Forall2 (λ c c', ∃ b, c' = set_Failed b c) (h !! q) (h !! q).
Proof.
  destruct (h !! q) as [c|]; constructor.
  exists (Failed c). by rewrite set_Failed_same.
Qed.

Lemma touches_refl P σ : touches P σ σ.
Proof. split; auto using flag_refl_heap, shape_refl_heap. Qed.

Lemma touches_trans P σ1 σ2 σ3 :
  touches P σ1 σ2 → touches P σ2 σ3 → touches P σ1 σ3.
Proof.
  intros [C1 F1 S1 Sh1] [C2 F2 S2 Sh2]. split.
  - intros q Hq. rewrite C2, C1; auto.
  - intros q. specialize (F1 q). specialize (F2 q).
    destruct F1 as [c1 c2 [b1 ->]|]; inversion F2 as [? c3 [b2 ->]|]; subst;
      constructor. by exists b2.
  - intros l Hl. rewrite S2; [by apply S1|].
    intros q c2 Hq Hc2 Ho. specialize (F1 q). rewrite Hc2 in F1.
    inversion F1 as [c1 ? [b ->] Hc1|]; subst.
    eapply Hl; [exact Hq | by symmetry | exact Ho].
  - intros l. specialize (Sh1 l). specialize (Sh2 l).
    destruct Sh1 as [fs1 fs2 E1|]; inversion Sh2 as [? fs3 E2|]; subst;
      constructor. congruence.
Qed.

Lemma touches_mono P P' σ σ' : P ⊆ P' → touches P σ σ' → touches P' σ σ'.
Proof.
  intros Hsub [C F S Sh]. split; [| done | | done].
  - intros q Hq. apply C. intros Hin. apply Hq, Hsub, Hin.
  - intros l Hl. apply S. intros q c Hq. apply Hl, Hsub, Hq.
Qed.

Lemma touches_flagged P p c b σ :
  p ∈ P → calls_heap σ !! p = Some c →
  touches P σ (mkState (<[p := set_Failed b c]> (calls_heap σ))
                       (structs_heap σ) (trace σ)).
Proof.
  intros Hp Hc. split; simpl; [| | done | auto using shape_refl_heap].
  - intros q Hq. apply lookup_insert_ne. intros ->. done.
  - intros q. destruct (decide (p = q)) as [<-|Hne].
    + rewrite lookup_insert_eq, Hc. constructor. by exists b.
    + rewrite lookup_insert_ne by done. apply flag_refl_heap.
Qed.

Lemma only_struct_touches P p d σ σ' :
  p ∈ P →
  only_struct d σ σ' →
  (∀ l, d = DestHeap l →
        ∃ c, calls_heap σ !! p = Some c ∧ Outputs c = OutPointer l) →
  touches P σ σ'.
Proof.
  intros Hp [C T O Sh] Hd. split; [| | | done].
  - intros q _. by rewrite C.
  - intros q. rewrite C. apply flag_refl_heap.
  - intros l Hl. apply O. intros ->.
    destruct (Hd l eq_refl) as (c & Hc & Ho). by eapply Hl.
Qed.

Lemma Unpack_touches P p b σ :
  p ∈ P → touches P σ (final_state (Unpack p b σ)).
Proof.
  intros Hp. destruct (Unpack_frame p b σ) as (d & Ho & Hd).
  by eapply only_struct_touches.
Qed.

(** *** The demultiplexing loop *)

(** One iteration, with the store accesses resolved. *)
Lemma demux_loop_cons calls i r rest σ :
  demux_loop calls i (r :: rest) σ
  = match calls !! i with
    | None => Panic (PanicCallsIndex i (length calls)) σ
    | Some p =>
        match calls_heap σ !! p with
        | None => Panic PanicNilCall σ
        | Some c =>
            if Success r then
              match Unpack p (ReturnData r) (flagged p false c σ) with
              | Done (Some e) σ2 =>
                  Done (Some ("failed to unpack call outputs at index ["
                              +:+ pretty i +:+ "]: " +:+ e)) σ2
              | Done None σ2 => demux_loop calls (S i) rest σ2
              | Panic x σ2 => Panic x σ2
              end
            else demux_loop calls (S i) rest (flagged p true c σ)
        end
    end.
Proof.
  simpl. destruct (calls !! i) as [p|]; [|done].
  unfold mbind at 1, M_bind at 1, store_Failed.
  destruct (calls_heap σ !! p) as [c|]; [|done].
  unfold mbind at 1, M_bind at 1, load_call. simpl.
  rewrite lookup_insert_eq. unfold flagged.
  destruct (Success r); simpl; [|done].
  unfold mbind, M_bind.
  by destruct (Unpack p (ReturnData r) _) as [[e|] σ2|x σ2].
Qed.

Lemma demux_loop_app calls i rs1 rs2 σ :
  demux_loop calls i (rs1 ++ rs2) σ
  = match demux_loop calls i rs1 σ with
    | Done None σ' => demux_loop calls (i + length rs1) rs2 σ'
    | other => other
    end.
Proof.
  revert i σ. induction rs1 as [|r rs1 IH]; intros i σ.
  - simpl. unfold mret, M_ret. by rewrite Nat.add_0_r.
  - rewrite <- app_comm_cons, !demux_loop_cons.
    replace (i + length (r :: rs1))%nat with (S i + length rs1)%nat by (simpl; lia).
    destruct (calls !! i) as [p|]; [|done].
    destruct (calls_heap σ !! p) as [c|]; [|done].
    destruct (Success r); [|apply IH].
    destruct (Unpack p (ReturnData r) _) as [[e|] σ2|x σ2]; [done | apply IH | done].
Qed.

Lemma demux_touches calls i results σ :
  touches (take (length results) (drop i calls)) σ
          (final_state (demux_loop calls i results σ)).
Proof.
  revert i σ. induction results as [|r rest IH]; intros i σ.
  - apply touches_refl.
  - rewrite demux_loop_cons.
    destruct (calls !! i) as [p|] eqn:Hi; [|apply touches_refl].
    rewrite (drop_S _ _ _ Hi). simpl.
    destruct (calls_heap σ !! p) as [c|] eqn:Hc; [|apply touches_refl].
    assert (Hin : p ∈ p :: take (length rest) (drop (S i) calls)) by left.
    assert (Hsub : take (length rest) (drop (S i) calls)
                   ⊆ p :: take (length rest) (drop (S i) calls))
      by (intros q Hq; by right).
    destruct (Success r).
    + eapply touches_trans; [by apply (touches_flagged _ p c false)|].
      pose proof (Unpack_touches _ p (ReturnData r) (flagged p false c σ) Hin) as HU.
      destruct (Unpack p (ReturnData r) _) as [[e|] σ2|x σ2]; simpl in HU;
        [exact HU | | exact HU].
      eapply touches_trans; [exact HU|].
      eapply touches_mono; [exact Hsub | apply IH].
    + eapply touches_trans; [by apply (touches_flagged _ p c true)|].
      eapply touches_mono; [exact Hsub | apply IH].
Qed.

(** With a response no longer than the unit list, [calls[i]] is always in
    range. *)
Lemma demux_in_bounds calls i results σ x σ' :
  (i + length results ≤ length calls)%nat →
  demux_loop calls i results σ = Panic x σ' →
  ∀ j n, x ≠ PanicCallsIndex j n.
Proof.
  revert i σ. induction results as [|r rest IH]; intros i σ Hlen; [done|].
  simpl in Hlen. rewrite demux_loop_cons.
  destruct (lookup_lt_is_Some_2 calls i ltac:(lia)) as [p ->].
  destruct (calls_heap σ !! p) as [c|]; [|congruence].
  destruct (Success r); [|apply IH; lia].
  destruct (Unpack p (ReturnData r) _) as [[e|] σ2|y σ2] eqn:EU;
    [done | apply IH; lia |].
  intros [= <- <-]. eapply Unpack_panic, EU.
Qed.

(** The units past the end of the response play no part. *)
Lemma demux_take calls i results σ :
  (i + length results ≤ length calls)%nat →
  demux_loop calls i results σ
  = demux_loop (take (i + length results) calls) i results σ.
Proof.
  revert i σ. induction results as [|r rest IH]; intros i σ Hlen; [done|].
  simpl in Hlen. rewrite !demux_loop_cons.
  rewrite lookup_take_lt by (simpl; lia).
  destruct (calls !! i) as [p|] eqn:Hi;
    [|apply lookup_ge_None in Hi; lia].
  replace (i + length (r :: rest))%nat with (S i + length rest)%nat by (simpl; lia).
  destruct (calls_heap σ !! p) as [c|]; [|done].
  destruct (Success r); [|apply IH; lia].
  destruct (Unpack p (ReturnData r) _) as [[e|] σ2|y σ2]; [done | apply IH; lia | done].
Qed.

(** An error of the loop is the decode error of one entry of the
    response. *)
Lemma demux_error calls i results σ e σ' :
  demux_loop calls i results σ = Done (Some e) σ' →
  ∃ j e', (i ≤ j < i + length results)%nat
          ∧ e = "failed to unpack call outputs at index [" +:+ pretty j
                +:+ "]: " +:+ e'.
Proof.
  revert i σ. induction results as [|r rest IH]; intros i σ; [done|].
  rewrite demux_loop_cons.
  destruct (calls !! i) as [p|]; [|done].
  destruct (calls_heap σ !! p) as [c|]; [|done].
  assert (Hrec : ∀ σ1, demux_loop calls (S i) rest σ1 = Done (Some e) σ' →
    ∃ j e', (i ≤ j < i + length (r :: rest))%nat
            ∧ e = "failed to unpack call outputs at index [" +:+ pretty j
                  +:+ "]: " +:+ e').
  { intros σ1 H1. destruct (IH _ _ H1) as (j & e' & Hj & ->).
    exists j, e'. split; [simpl; lia | done]. }
  destruct (Success r); [|apply Hrec].
  destruct (Unpack p (ReturnData r) _) as [[e0|] σ2|y σ2]; [| apply Hrec | done].
  intros [= <- <-]. exists i, e0. split; [simpl; lia | done].
Qed.

(** *** Caller.Call *)

Lemma Call_dispatched opts calls σ multiCalls results :
  dispatched Aggregate3 opts calls σ multiCalls results →
  Caller_Call opts calls σ
  = match demux_loop calls 0 results (sent opts multiCalls σ) with
    | Done e σ' => Done (calls, e) σ'
    | Panic x σ' => Panic x σ'
    end.
Proof.
  intros [Hpack Hagg]. unfold Caller_Call.
  rewrite (bind_Done _ _ _ _ _ Hpack).
  unfold mbind, M_bind, aggregate3, mret, M_ret. rewrite Hagg. done.
Qed.

Lemma Call_returns_calls opts calls σ r e σ' :
  Caller_Call opts calls σ = Done (r, e) σ' → r = calls.
Proof.
  unfold Caller_Call, mbind, M_bind, mret, M_ret, aggregate3.
  destruct (pack_loop 0 calls [] σ) as [[e0|mc] σ1|x σ1]; [congruence | | done].
  destruct (Aggregate3 _ _ _) as [err|results]; [congruence|].
  destruct (demux_loop _ _ _ _) as [e1 σ2|x σ2]; congruence.
Qed.

Lemma Call_touches opts calls σ :
  touches calls σ (final_state (Caller_Call opts calls σ)).
Proof.
  unfold Caller_Call, mbind, M_bind, mret, M_ret, aggregate3.
  pose proof (pack_loop_final 0 calls [] σ) as HP.
  destruct (pack_loop 0 calls [] σ) as [[e0|mc] σ1|x σ1]; simpl in HP; subst σ1;
    [apply touches_refl | | apply touches_refl].
  assert (Hsent : touches calls σ (sent opts mc σ)).
  { split; simpl; auto using flag_refl_heap, shape_refl_heap. }
  destruct (Aggregate3 _ _ _) as [err|results]; [exact Hsent|].
  fold (sent opts mc σ).
  pose proof (demux_touches calls 0 results (sent opts mc σ)) as HD.
  assert (Hf : touches calls (sent opts mc σ)
                 (final_state (demux_loop calls 0 results (sent opts mc σ)))).
  { eapply touches_mono; [|exact HD]. rewrite drop_0.
    apply subseteq_take. }
  eapply touches_trans; [exact Hsent|].
  by destruct (demux_loop _ _ _ _).
Qed.

Lemma results_split (results : list Multicall3Result) i r :
  results !! i = Some r →
  results = take i results ++ r :: drop (S i) results
  ∧ length (take i results) = i.
Proof.
  intros Hr. split; [by rewrite take_drop_middle|].
  rewrite length_take. apply lookup_lt_Some in Hr. lia.
Qed.

(** C7: when the units before index [i] have been processed, the
    success flag of entry [i] is true and unpacking its return bytes
    returns an error, [Call] stops there and returns the unit list with
    an error that carries the index [i] and the decode error.  The final
    state is the one the units before [i] left, with the failure flag of
    unit [i] cleared: whatever was written for the earlier units stays. *)
Theorem Call_decode_failure opts calls σ multiCalls results i r p c e σi σe :
  dispatched Aggregate3 opts calls σ multiCalls results →
  demux_loop calls 0 (take i results) (sent opts multiCalls σ) = Done None σi →
  results !! i = Some r → Success r = true →
  calls !! i = Some p → calls_heap σi !! p = Some c →
  Unpack p (ReturnData r) (flagged p false c σi) = Done (Some e) σe →
  Caller_Call opts calls σ
  = Done (calls, Some ("failed to unpack call outputs at index [" +:+ pretty i
                       +:+ "]: " +:+ e)) σe
  ∧ σe = flagged p false c σi
  ∧ structs_heap σe = structs_heap σi
  ∧ ∀ q, q ≠ p → calls_heap σe !! q = calls_heap σi !! q.
Proof.
  intros Hd Hpre Hr Hs Hp Hc HU.
  assert (σe = flagged p false c σi) as -> by by eapply Unpack_error_state.
  split; [|split; [done|split; [done|]]].
  - rewrite (Call_dispatched _ _ _ _ _ Hd).
    destruct (results_split results i r Hr) as [Hsplit Hlen].
    rewrite Hsplit at 1.
    rewrite demux_loop_app, Hpre, Hlen, Nat.add_0_l. cbv beta iota.
    by rewrite demux_loop_cons, Hp, Hc, Hs, HU.
  - intros q Hq. simpl. by apply lookup_insert_ne.
Qed.

(** C4: when the units before index [i] have been processed and the
    success flag of entry [i] is false, the iteration for unit [i] sets
    its failure flag and does nothing else: no struct is written, no error
    is raised, and the loop goes on with entry [i+1]: the outcome of [Call]
    is the outcome of the remaining entries, so [Call] returns the unit
    list without error when they raise none.  At the end of the dispatch
    the flag of unit [i] is still set unless the unit is listed again
    further on, and a struct is as unit [i] found it unless a later unit
    has it as output destination. *)
Theorem Call_unit_failed opts calls σ multiCalls results i r p c σi :
  dispatched Aggregate3 opts calls σ multiCalls results →
  demux_loop calls 0 (take i results) (sent opts multiCalls σ) = Done None σi →
  results !! i = Some r → Success r = false →
  calls !! i = Some p → calls_heap σi !! p = Some c →
  let σf := final_state (Caller_Call opts calls σ) in
  demux_loop calls 0 (take (S i) results) (sent opts multiCalls σ)
  = Done None (flagged p true c σi)
  ∧ Failed <$> calls_heap (flagged p true c σi) !! p = Some true
  ∧ structs_heap (flagged p true c σi) = structs_heap σi
  ∧ Caller_Call opts calls σ
    = match demux_loop calls (S i) (drop (S i) results) (flagged p true c σi) with
      | Done e σ' => Done (calls, e) σ'
      | Panic x σ' => Panic x σ'
      end
  ∧ (∀ σ', demux_loop calls (S i) (drop (S i) results) (flagged p true c σi)
           = Done None σ' →
           Caller_Call opts calls σ = Done (calls, None) σ')
  ∧ (p ∉ drop (S i) calls → Failed <$> calls_heap σf !! p = Some true)
  ∧ (∀ l, (∀ q c', q ∈ drop (S i) calls →
                   calls_heap σi !! q = Some c' → Outputs c' ≠ OutPointer l) →
          structs_heap σf !! l = structs_heap σi !! l).
Proof.
  intros Hd Hpre Hr Hs Hp Hc σf.
  destruct (results_split results i r Hr) as [Hsplit Hlen].
  assert (Hcall : Caller_Call opts calls σ
    = match demux_loop calls (S i) (drop (S i) results) (flagged p true c σi) with
      | Done e σ' => Done (calls, e) σ'
      | Panic x σ' => Panic x σ'
      end).
  { rewrite (Call_dispatched _ _ _ _ _ Hd). rewrite Hsplit at 1.
    rewrite demux_loop_app, Hpre, Hlen, Nat.add_0_l. cbv beta iota.
    by rewrite demux_loop_cons, Hp, Hc, Hs. }
  pose proof (demux_touches calls (S i) (drop (S i) results)
                (flagged p true c σi)) as HT.
  assert (Hσf : σf = final_state (demux_loop calls (S i) (drop (S i) results)
                                    (flagged p true c σi))).
  { unfold σf. rewrite Hcall.
    by destruct (demux_loop calls (S i) (drop (S i) results) _). }
  rewrite <- Hσf in HT. destruct HT as [HC _ HS _].
  split; [|split; [|split; [done|split; [exact Hcall|split; [|split]]]]].
  - rewrite (take_S_r _ _ _ Hr), demux_loop_app, Hpre, Hlen, Nat.add_0_l.
    cbv beta iota. rewrite demux_loop_cons, Hp, Hc, Hs. reflexivity.
  - simpl. by rewrite lookup_insert_eq.
  - intros σ' Hrest. by rewrite Hcall, Hrest.
  - intros Hnotin. rewrite HC; [simpl; by rewrite lookup_insert_eq|].
    intros Hin. apply Hnotin. by eapply subseteq_take.
  - intros l Hl. rewrite HS; [done|].
    intros q c' Hq Hc'. apply subseteq_take in Hq. simpl in Hc'.
    destruct (decide (p = q)) as [<-|Hne].
    + rewrite lookup_insert_eq in Hc'. injection Hc' as <-.
      destruct c; simpl. by apply (Hl p _ Hq Hc).
    + rewrite lookup_insert_ne in Hc' by done. by apply (Hl q c' Hq).
Qed.

(** C10: [Call] does not compare the length of the response with the
    number of units.  When the response has at most one entry per unit,
    [calls[i]] is in range at every iteration, the units past the end of
    the response take no part in the loop and are left as they were, and
    the only error the loop can return is the decode error of an entry:
    a short response is not reported.  When the response is longer than
    the unit list and the loop gets through the entries that have a
    unit, the next [calls[i]] is out of range and [Call] panics. *)
Theorem Call_response_length opts calls σ multiCalls results :
  dispatched Aggregate3 opts calls σ multiCalls results →
  let σ1 := sent opts multiCalls σ in
  let σf := final_state (Caller_Call opts calls σ) in
  ((length results ≤ length calls)%nat →
     (∀ x σ', Caller_Call opts calls σ = Panic x σ' →
              ∀ j n, x ≠ PanicCallsIndex j n)
     ∧ demux_loop calls 0 results σ1
       = demux_loop (take (length results) calls) 0 results σ1
     ∧ (∀ j q, (length results ≤ j)%nat → calls !! j = Some q →
               q ∉ take (length results) calls →
               calls_heap σf !! q = calls_heap σ !! q)
     ∧ (∀ l, (∀ q c, q ∈ take (length results) calls →
                     calls_heap σ !! q = Some c → Outputs c ≠ OutPointer l) →
             structs_heap σf !! l = structs_heap σ !! l)
     ∧ (∀ r e σ', Caller_Call opts calls σ = Done (r, Some e) σ' →
          ∃ j e', (j < length results)%nat
                  ∧ e = "failed to unpack call outputs at index [" +:+ pretty j
                        +:+ "]: " +:+ e'))
  ∧ ((length calls < length results)%nat →
     ∀ σ', demux_loop calls 0 (take (length calls) results) σ1 = Done None σ' →
           Caller_Call opts calls σ
           = Panic (PanicCallsIndex (length calls) (length calls)) σ').
Proof.
  intros Hd σ1 σf. pose proof (Call_dispatched _ _ _ _ _ Hd) as Hcall.
  fold σ1 in Hcall. split.
  - intros Hlen.
    pose proof (demux_touches calls 0 results σ1) as HT.
    rewrite drop_0 in HT.
    assert (Hσf : σf = final_state (demux_loop calls 0 results σ1)).
    { unfold σf. rewrite Hcall. by destruct (demux_loop calls 0 results σ1). }
    rewrite <- Hσf in HT. destruct HT as [HC _ HS _].
    split; [|split; [|split; [|split]]].
    + intros x σ' HP. rewrite Hcall in HP.
      destruct (demux_loop calls 0 results σ1) as [e σ2|y σ2] eqn:E; [done|].
      injection HP as -> ->. eapply demux_in_bounds; [|exact E]. simpl. lia.
    + apply (demux_take calls 0 results σ1). simpl. lia.
    + intros j q _ _ Hq. by rewrite HC.
    + intros l Hl. by rewrite HS.
    + intros r e σ' HD. rewrite Hcall in HD.
      destruct (demux_loop calls 0 results σ1) as [e1 σ2|y σ2] eqn:E; [|done].
      injection HD as _ -> ->.
      destruct (demux_error _ _ _ _ _ _ E) as (j & e' & Hj & He).
      exists j, e'. split; [lia | done].
  - intros Hlen σ' Hpre. rewrite Hcall.
    rewrite <- (take_drop (length calls) results).
    rewrite demux_loop_app, Hpre, Nat.add_0_l, length_take.
    replace (length calls `min` length results)%nat with (length calls) by lia.
    destruct (drop (length calls) results) as [|r rest] eqn:Hdrop.
    { apply (f_equal length) in Hdrop. rewrite length_drop in Hdrop.
      simpl in Hdrop. lia. }
    rewrite demux_loop_cons.
    by rewrite (lookup_ge_None_2 calls (length calls)) by lia.
Qed.

(** *** Caller.CallChunked *)

Lemma chunked_loop_ok opts cooldown calls i chunks cks allCalls σ σ' :
  chunks_ok ConvertType Aggregate3 opts cooldown i chunks cks σ σ' →
  chunked_loop opts cooldown calls i chunks allCalls σ
  = Done (allCalls ++ concat cks, None) σ'
  ∧ cks = chunks.
Proof.
  intros H. revert allCalls.
  induction H as [i σ|i chunk rest ck cks σ σ0 σ1 σ2 Hpause Hcall _ IH];
    intros allCalls.
  - simpl. unfold mret, M_ret. by rewrite app_nil_r.
  - simpl. rewrite (bind_Done _ _ _ _ _ Hpause), (bind_Done _ _ _ _ _ Hcall).
    simpl. destruct (IH (allCalls ++ ck)) as [-> ->].
    rewrite <- app_assoc. split; [done|].
    by rewrite (Call_returns_calls _ _ _ _ _ _ Hcall).
Qed.

Lemma chunked_loop_fail opts cooldown calls i0 chunks i chunk cks ck e
    allCalls σ σi σ0 σ' :
  chunks_ok ConvertType Aggregate3 opts cooldown i0 (take i chunks) cks σ σi →
  chunks !! i = Some chunk →
  pause (i0 + i) cooldown σi = Done () σ0 →
  Caller_Call opts chunk σ0 = Done (ck, Some e) σ' →
  chunked_loop opts cooldown calls i0 chunks allCalls σ
  = Done (calls, Some ("call chunk [" +:+ pretty (i0 + i)%nat +:+ "] failed: " +:+ e)) σ'.
Proof.
  revert i0 chunks cks allCalls σ.
  induction i as [|i IH]; intros i0 chunks cks allCalls σ Hok Hi Hpause Hcall.
  - destruct chunks as [|ch chunks]; [done|]. injection Hi as ->.
    rewrite take_0 in Hok. inversion Hok; subst.
    rewrite Nat.add_0_r in *. simpl.
    by rewrite (bind_Done _ _ _ _ _ Hpause), (bind_Done _ _ _ _ _ Hcall).
  - destruct chunks as [|ch chunks]; [done|]. simpl in Hi, Hok.
    inversion Hok as [|? ? ? ck0 cks0 ? σa σb ? Hp0 Hc0 Hrest]; subst.
    simpl. rewrite (bind_Done _ _ _ _ _ Hp0), (bind_Done _ _ _ _ _ Hc0). simpl.
    replace (i0 + S i)%nat with (S i0 + i)%nat in * by lia.
    by eapply IH.
Qed.

(** The chunker never panics and loses nothing. *)
Lemma chunkInputs_concat {T} (size : Z) (inputs : list T) :
  ∃ chunks, chunkInputs size inputs = Some chunks ∧ concat chunks = inputs.
Proof.
  destruct inputs as [|x inputs]; [by exists []|].
  destruct (decide (size ≤ 0 ∨ (length (x :: inputs) < 2)%nat
                    ∨ Z.of_nat (length (x :: inputs)) < size)) as [Hg|Hg].
  - exists [x :: inputs]. split; [|simpl; by rewrite app_nil_r].
    unfold chunkInputs.
    destruct (Z.eqb_spec (Z.of_nat (length (x :: inputs))) 0) as [Hz|_];
      [simpl in Hz; lia|].
    destruct (Z.leb_spec size 0); [done|].
    destruct (Z.ltb_spec (Z.of_nat (length (x :: inputs))) 2); [done|].
    destruct (Z.gtb_spec size (Z.of_nat (length (x :: inputs)))); [done|]. lia.
  - eexists. split; [apply chunkInputs_general; lia|].
    set (n := length (x :: inputs)). set (sz := Z.to_nat size).
    assert (Hpos : (0 < sz)%nat) by (subst sz; lia).
    pose proof (Nat.div_mod_eq n sz) as Hdm.
    rewrite concat_app, concat_windows.
    destruct (decide (n mod sz = 0)%nat) as [Hz|Hnz]; simpl.
    + rewrite app_nil_r. apply take_ge. fold n. lia.
    + rewrite app_nil_r. apply take_drop.
Qed.

(** C9: when the chunks of the unit list are dispatched one after the
    other and every dispatch returns without error, [CallChunked] returns
    the lists returned by the dispatches, concatenated in chunk order,
    without error; each returned list is its chunk, and the concatenation
    is the input unit list: same length, same units, same order. *)
Theorem CallChunked_success opts chunkSize cooldown calls chunks cks σ σ' :
  chunkInputs chunkSize calls = Some chunks →
  chunks_ok ConvertType Aggregate3 opts cooldown 0 chunks cks σ σ' →
  CallChunked opts chunkSize cooldown calls σ = Done (concat cks, None) σ'
  ∧ cks = chunks
  ∧ concat cks = calls
  ∧ length (concat cks) = length calls.
Proof.
  intros Hch Hok.
  destruct (chunkInputs_concat chunkSize calls) as (chunks' & Hch' & Hcat).
  assert (chunks' = chunks) as -> by congruence.
  unfold CallChunked. rewrite Hch.
  destruct (chunked_loop_ok opts cooldown calls 0 chunks cks [] σ σ' Hok)
    as [Hrun ->].
  rewrite Hrun, Hcat. done.
Qed.

(** C2 (amended): when the chunks before chunk [i] are dispatched
    without error and the dispatch of chunk [i] returns an error,
    [CallChunked] stops and returns the list it was given, the same
    units in the same order, with an error that carries the index [i]
    and the error of the dispatch.  Nothing is undone: the failing
    dispatch started from the state the earlier chunks left, and the
    final state differs from that state at most in the units of chunk
    [i], so the units of the earlier chunks keep their failure flags and
    decoded outputs. *)
Theorem CallChunked_failure opts chunkSize cooldown calls chunks cks i chunk
    ck e σ σi σ0 σ' :
  chunkInputs chunkSize calls = Some chunks →
  chunks_ok ConvertType Aggregate3 opts cooldown 0 (take i chunks) cks σ σi →
  chunks !! i = Some chunk →
  pause i cooldown σi = Done () σ0 →
  Caller_Call opts chunk σ0 = Done (ck, Some e) σ' →
  CallChunked opts chunkSize cooldown calls σ
  = Done (calls, Some ("call chunk [" +:+ pretty i +:+ "] failed: " +:+ e)) σ'
  ∧ touches chunk σi σ'.
Proof.
  intros Hch Hok Hi Hpause Hcall. split.
  - unfold CallChunked. rewrite Hch.
    by apply (chunked_loop_fail opts cooldown calls 0 chunks i chunk cks ck e [] σ σi σ0 σ').
  - pose proof (Call_touches opts chunk σ0) as HT. rewrite Hcall in HT.
    simpl in HT. eapply touches_trans; [|exact HT].
    revert Hpause. unfold pause, sleep, mret, M_ret.
    destruct (_ && _); intros [= <-]; [|apply touches_refl].
    split; simpl; auto using flag_refl_heap, shape_refl_heap.
Qed.

(** C6: when packing the unit at index [i] fails (the units before it
    pack), [Call] returns the unit list with an error that carries the
    index [i] and the cause reported by the ABI encoder, and the final
    state is the initial one: no unit is written and the trace has no new
    event, so nothing was sent. *)
Theorem Call_pack_failure opts calls σ i p e :
  calls !! i = Some p →
  (∀ j q, (j < i)%nat → calls !! j = Some q → ∃ b, Pack q σ = Done (inr b) σ) →
  Pack p σ = Done (inl e) σ →
  Caller_Call opts calls σ
  = Done (calls, Some ("failed to pack call inputs at index [" +:+ pretty i
                       +:+ "]: " +:+ e)) σ
  ∧ ∃ c k cause,
      calls_heap σ !! p = Some c ∧ CallContract c = Some k
      ∧ abi_Pack (abi k) (Method c) (Inputs c) = inl cause
      ∧ e = "failed to pack '" +:+ Method c +:+ "' inputs: " +:+ cause.
Proof.
  intros Hi Hbefore Hp. split.
  - unfold Caller_Call.
    by rewrite (bind_Done _ _ _ _ _ (pack_loop_fail 0 calls [] σ i p e Hi Hbefore Hp)).
  - destruct (Pack_inv _ _ _ _ Hp) as (_ & c & k & Hc & Hk & Hr).
    exists c, k. destruct (abi_Pack _ _ _) as [cause|b]; [|done].
    exists cause. by injection Hr as ->.
Qed.

(** C5: when every unit packs and the aggregated remote call fails,
    [Call] returns the unit list with the error of the remote call, and
    both stores are as before the call: no failure flag is set and no
    output field is written.  The trace has the one request. *)
Theorem Call_remote_failure opts calls σ multiCalls err :
  pack_loop 0 calls [] σ = Done (inr multiCalls) σ →
  Aggregate3 (trace σ) opts multiCalls = inl err →
  Caller_Call opts calls σ
  = Done (calls, Some ("multicall failed: " +:+ err))
         (mkState (calls_heap σ) (structs_heap σ)
                  (trace σ ++ [EvAggregate3 opts multiCalls])).
Proof.
  intros Hpack Hagg. unfold Caller_Call.
  rewrite (bind_Done _ _ _ _ _ Hpack).
  unfold mbind, M_bind, aggregate3. by rewrite Hagg.
Qed.

End Properties.

(** ** The properties on the small instance *)

Section ToyRuns.
Import Toy.

Lemma Call_pack_failure_witness :
  Caller_Call convert remote 5%nat units (three u2_bad)
  = Done (units,
          Some "failed to pack call inputs at index [1]: failed to pack 'bad' inputs: method 'bad' not found")
         (three u2_bad).
Proof.
  refine (proj1 (Call_pack_failure convert remote 5%nat units (three u2_bad)
                   1%nat 2%positive
                   "failed to pack 'bad' inputs: method 'bad' not found"
                   _ _ _)).
  - reflexivity.
  - intros j q Hj Hq. destruct j as [|j]; [|lia].
    injection Hq as <-. eexists. vm_compute. reflexivity.
  - vm_compute. reflexivity.
Defined.

Lemma Call_remote_failure_witness :
  Caller_Call convert remote 0%nat units st3
  = Done (units, Some "multicall failed: execution reverted")
         (mkState (calls_heap st3) (structs_heap st3)
                  [EvAggregate3 0%nat (request u2)]).
Proof.
  refine (Call_remote_failure convert remote 0%nat units st3 (request u2)
            "execution reverted" _ _).
  - vm_compute. reflexivity.
  - reflexivity.
Defined.

Lemma Unpack_behaviour_witness :
  ∃ fs', Unpack convert 1%positive [byte_of_Z 10] st3
         = Done None (mkState (calls_heap st3)
                              (<[11%positive := fs']> (structs_heap st3))
                              (trace st3))
         ∧ fs' !! 0%nat = Some (int_field 10).
Proof.
  destruct (Unpack_behaviour convert 1%positive [byte_of_Z 10] st3
              (unit_ "balanceOf" [10] 11%positive false) eq_refl)
    as (_ & _ & _ & Hok).
  destruct (Hok 11%positive [int_field 0] token [10]
              eq_refl eq_refl eq_refl eq_refl) as (fs' & Hrun & _ & Hall).
  - simpl. lia.
  - intros i f v Hf Hv. destruct i as [|i]; [|done].
    injection Hf as <-. split; [reflexivity | by eexists].
  - exists fs'. split; [exact Hrun|].
    destruct (Hall 0%nat (int_field 0) eq_refl) as (v & v' & Hv & Hc & Hfs').
    injection Hv as <-. injection Hc as <-. exact Hfs'.
Defined.

(** C1 fails on the code.  With two decoded values and a one-field
    struct, [Unpack] returns nil and drops the second value; with one
    decoded value and a two-field struct, it panics on [out[1]] after it
    has written the first field. *)
Lemma Unpack_mismatch_counterexample :
  (abi_Unpack codec "balanceOf" [byte_of_Z 10; byte_of_Z 99] = inr [10; 99]
   ∧ structs_heap st3 !! 11%positive = Some [int_field 0]
   ∧ ∃ σ', Unpack convert 1%positive [byte_of_Z 10; byte_of_Z 99] st3
           = Done None σ'
           ∧ structs_heap σ' !! 11%positive = Some [int_field 10])
  ∧ (abi_Unpack codec "balanceOf" [byte_of_Z 10] = inr [10]
     ∧ structs_heap st_two !! 11%positive = Some [int_field 0; int_field 0]
     ∧ ∃ σ', Unpack convert 1%positive [byte_of_Z 10] st_two
             = Panic (PanicOutIndex 1 1) σ'
             ∧ structs_heap σ' !! 11%positive
               = Some [int_field 10; int_field 0]).
Proof.
  split; (split; [reflexivity|]); (split; [reflexivity|]);
    eexists; (split; [vm_compute; reflexivity | reflexivity]).
Qed.

Lemma Call_decode_failure_witness :
  ∃ σe, Caller_Call convert remote 5%nat units (three u2_empty)
        = Done (units,
                Some "failed to unpack call outputs at index [1]: failed to unpack 'balanceOf' outputs: abi: attempting to unmarshal an empty string")
               σe
        ∧ structs_heap σe !! 11%positive = Some [int_field 10]
        ∧ structs_heap σe !! 13%positive = Some [int_field 0].
Proof.
  set (σ := three u2_empty).
  set (σi := final_state (demux_loop convert units 0 (take 1 (response u2_empty))
                            (sent 5%nat (request u2_empty) σ))).
  exists (flagged 2%positive false u2_empty σi).
  destruct (Call_decode_failure convert remote 5%nat units σ
              (request u2_empty) (response u2_empty) 1%nat
              (mkResult true []) 2%positive u2_empty
              "failed to unpack 'balanceOf' outputs: abi: attempting to unmarshal an empty string"
              σi (flagged 2%positive false u2_empty σi))
    as (Hcall & _ & _ & _).
  - split; vm_compute; reflexivity.
  - vm_compute. reflexivity.
  - reflexivity.
  - reflexivity.
  - reflexivity.
  - vm_compute. reflexivity.
  - vm_compute. reflexivity.
  - split; [exact Hcall|]. split; vm_compute; reflexivity.
Defined.

Lemma Call_unit_failed_witness :
  ∃ σ', Caller_Call convert remote 5%nat units (three u2_tolerant)
        = Done (units, None) σ'
        ∧ Failed <$> calls_heap σ' !! 2%positive = Some true
        ∧ structs_heap σ' !! 12%positive = Some [int_field 0]
        ∧ structs_heap σ' !! 13%positive = Some [int_field 30].
Proof.
  set (σ := three u2_tolerant).
  set (σi := final_state (demux_loop convert units 0 (take 1 (response u2_tolerant))
                            (sent 5%nat (request u2_tolerant) σ))).
  set (σ' := final_state (demux_loop convert units 2 (drop 2 (response u2_tolerant))
                            (flagged 2%positive true u2_tolerant σi))).
  exists σ'.
  destruct (Call_unit_failed convert remote 5%nat units σ
              (request u2_tolerant) (response u2_tolerant) 1%nat
              (mkResult false [byte_of_Z 20]) 2%positive u2_tolerant σi)
    as (_ & _ & _ & _ & Hret & Hflag & Hstruct).
  - split; vm_compute; reflexivity.
  - vm_compute. reflexivity.
  - reflexivity.
  - reflexivity.
  - reflexivity.
  - vm_compute. reflexivity.
  - pose proof (Hret σ' ltac:(vm_compute; reflexivity)) as Hcall.
    assert (Hσ' : final_state (Caller_Call convert remote 5%nat units σ) = σ')
      by (rewrite Hcall; reflexivity).
    rewrite Hσ' in Hflag, Hstruct.
    split; [exact Hcall|]. split; [|split].
    + apply Hflag. vm_compute. intros Hin.
      apply list_elem_of_In in Hin. simpl in Hin. intuition discriminate.
    + etrans; [apply (Hstruct 12%positive) | vm_compute; reflexivity].
      intros q c' Hq Hc'. apply list_elem_of_In in Hq. simpl in Hq.
      destruct Hq as [<-|[]]. vm_compute in Hc'. injection Hc' as <-. discriminate.
    + vm_compute. reflexivity.
Defined.

Lemma Call_response_length_witness :
  (∃ σ', Caller_Call convert remote_short 5%nat units st3 = Done (units, None) σ'
         ∧ calls_heap σ' !! 3%positive = calls_heap st3 !! 3%positive
         ∧ structs_heap σ' !! 13%positive = structs_heap st3 !! 13%positive)
  ∧ (∃ σ', Caller_Call convert remote_long 5%nat units st3
           = Panic (PanicCallsIndex 3 3) σ').
Proof.
  split.
  - set (results := answer <$> removelast (request u2)).
    destruct (Call_response_length convert remote_short 5%nat units st3
                (request u2) results) as [Hshort _].
    { split; vm_compute; reflexivity. }
    destruct (Hshort ltac:(simpl; lia)) as (_ & _ & Hunit & Hstruct & _).
    exists (final_state (Caller_Call convert remote_short 5%nat units st3)).
    split; [vm_compute; reflexivity|]. split.
    + apply (Hunit 2%nat 3%positive); [simpl; lia | reflexivity |].
      intros Hin. apply list_elem_of_In in Hin. simpl in Hin.
      intuition discriminate.
    + apply (Hstruct 13%positive). intros q c Hq Hc.
      apply list_elem_of_In in Hq. simpl in Hq.
      destruct Hq as [<-|[<-|[]]]; vm_compute in Hc; injection Hc as <-;
        discriminate.
  - set (results := (answer <$> request u2) ++ [mkResult false []]).
    destruct (Call_response_length convert remote_long 5%nat units st3
                (request u2) results) as [_ Hlong].
    { split; vm_compute; reflexivity. }
    eexists. apply Hlong; [simpl; lia|].
    vm_compute. reflexivity.
Defined.

Lemma CallChunked_success_witness :
  ∃ σ', CallChunked convert remote 5%nat 2 1 units st3 = Done (units, None) σ'.
Proof.
  set (σ1 := final_state (Caller_Call convert remote 5%nat [1; 2]%positive st3)).
  set (σ1' := final_state (pause 1 1 σ1)).
  set (σ2 := final_state (Caller_Call convert remote 5%nat [3%positive] σ1')).
  exists σ2.
  refine (proj1 (CallChunked_success convert remote 5%nat 2 1 units
                   [[1; 2]; [3]]%positive [[1; 2]; [3]]%positive st3 σ2 _ _)).
  - reflexivity.
  - apply (chunks_ok_cons convert remote 5%nat 1 0 [1; 2]%positive
             [[3%positive]] [1; 2]%positive [[3%positive]] st3 st3 σ1 σ2).
    + reflexivity.
    + vm_compute. reflexivity.
    + apply (chunks_ok_cons convert remote 5%nat 1 1 [3%positive] []
               [3%positive] [] σ1 σ1' σ2 σ2).
      * vm_compute. reflexivity.
      * vm_compute. reflexivity.
      * apply chunks_ok_nil.
Defined.

Lemma CallChunked_failure_witness :
  ∃ σ', CallChunked convert remote 1%nat 2 0 units st3
        = Done (units,
                Some "call chunk [1] failed: multicall failed: execution reverted")
               σ'
        ∧ structs_heap σ' !! 11%positive = Some [int_field 10].
Proof.
  set (σi := final_state (Caller_Call convert remote 1%nat [1; 2]%positive st3)).
  set (σ' := final_state (Caller_Call convert remote 1%nat [3%positive] σi)).
  exists σ'.
  destruct (CallChunked_failure convert remote 1%nat 2 0 units
              [[1; 2]; [3]]%positive [[1; 2]]%positive 1%nat [3%positive]
              [3%positive] "multicall failed: execution reverted"
              st3 σi σi σ') as [Hcall [_ _ Hstruct _]].
  - reflexivity.
  - apply (chunks_ok_cons convert remote 1%nat 0 0 [1; 2]%positive []
             [1; 2]%positive [] st3 st3 σi σi).
    + reflexivity.
    + vm_compute. reflexivity.
    + apply chunks_ok_nil.
  - reflexivity.
  - reflexivity.
  - vm_compute. reflexivity.
  - split; [exact Hcall|].
    etrans; [apply (Hstruct 11%positive) | vm_compute; reflexivity].
    intros q c Hq Hc. apply list_elem_of_In in Hq. simpl in Hq.
    destruct Hq as [<-|[]]. vm_compute in Hc. injection Hc as <-. discriminate.
Defined.

(** C2 fails on the code.  Three units in chunks of two, the remote call
    of the second chunk reverts: [CallChunked] returns the three units
    with the error of chunk 1, and the first unit carries the balance
    that the first chunk decoded into its struct. *)
Lemma CallChunked_rollback_counterexample :
  ∃ σ', CallChunked convert remote 1%nat 2 0 units st3
        = Done (units,
                Some "call chunk [1] failed: multicall failed: execution reverted")
               σ'
        ∧ structs_heap st3 !! 11%positive = Some [int_field 0]
        ∧ structs_heap σ' !! 11%positive = Some [int_field 10]
        ∧ structs_heap σ' ≠ structs_heap st3.
Proof.
  eexists. split; [vm_compute; reflexivity|].
  split; [reflexivity|]. split; [reflexivity|].
  intros Heq. apply (f_equal (λ h, h !! 11%positive)) in Heq.
  vm_compute in Heq. discriminate.
Qed.

End ToyRuns.

(** ** More on the chunker *)

Section ChunkerMore.
Context {T : Type}.
Implicit Types (inputs : list T) (chunks : list (list T)).

Lemma chunkInputs_single (size : Z) inputs :
  inputs ≠ [] →
  size ≤ 0 ∨ (length inputs < 2)%nat ∨ Z.of_nat (length inputs) < size →
  chunkInputs size inputs = Some [inputs].
Proof.
  intros Hne Hguard. unfold chunkInputs.
  destruct (Z.eqb_spec (Z.of_nat (length inputs)) 0) as [Hz|_].
  - destruct inputs; [done | simpl in Hz; lia].
  - destruct (Z.leb_spec size 0); [done|].
    destruct (Z.ltb_spec (Z.of_nat (length inputs)) 2); [done|].
    destruct (Z.gtb_spec size (Z.of_nat (length inputs))); [done|]. lia.
Qed.

(** The three ways [chunkInputs] returns. *)
Lemma chunkInputs_cases (size : Z) inputs :
  let n := length inputs in
  let sz := Z.to_nat size in
  (inputs = [] ∧ chunkInputs size inputs = Some [])
  ∨ (inputs ≠ [] ∧ (size ≤ 0 ∨ (n < 2)%nat ∨ Z.of_nat n < size)
     ∧ chunkInputs size inputs = Some [inputs])
  ∨ ((2 ≤ n)%nat ∧ 1 ≤ size ≤ Z.of_nat n
     ∧ chunkInputs size inputs
       = Some ((window sz inputs <$> seq 0 (n / sz))
               ++ (if decide (n mod sz = 0)%nat then []
                   else [drop (n / sz * sz) inputs]))).
Proof.
  intros n sz. destruct inputs as [|x inputs']; [by left|]. right.
  set (inputs := x :: inputs') in *.
  destruct (decide (size ≤ 0 ∨ (n < 2)%nat ∨ Z.of_nat n < size)) as [Hg|Hg].
  - left. split; [done|]. split; [done|]. by apply chunkInputs_single.
  - right. split; [lia|]. split; [lia|]. apply chunkInputs_general; lia.
Qed.

(** X1: whatever the chunk size, [chunkInputs] returns (its slice
    expressions are always in range) and no chunk it returns is empty; when
    the chunk size is at least 1, no chunk has more than that many units. *)
Theorem chunkInputs_chunks_bounded (size : Z) inputs :
  ∃ chunks,
    chunkInputs size inputs = Some chunks
    ∧ Forall (λ c, c ≠ [] ∧ (1 ≤ size → Z.of_nat (length c) ≤ size)) chunks.
Proof.
  destruct (chunkInputs_cases size inputs)
    as [[-> ->]|[(Hne & Hg & ->)|(Hn & Hsize & ->)]].
  - by exists [].
  - exists [inputs]. split; [done|]. constructor; [|constructor].
    split; [done|]. intros H1. destruct Hg as [?|[Hlt|?]]; [lia| |lia].
    destruct inputs as [|x [|y inputs]]; simpl in *; [done | lia | lia].
  - set (n := length inputs) in *. set (sz := Z.to_nat size) in *.
    assert (Hpos : (0 < sz)%nat) by (subst sz; lia).
    pose proof (Nat.div_mod_eq n sz) as Hdm.
    pose proof (Nat.mod_upper_bound n sz ltac:(lia)) as Hmod.
    eexists. split; [done|]. apply Forall_app. split.
    + apply Forall_fmap, Forall_forall. intros k Hk. apply elem_of_seq in Hk.
      simpl.
      assert (Hlen : length (window sz inputs k) = sz)
        by (apply length_window; fold n; nia).
      split; [|lia]. intros Heq. rewrite Heq in Hlen. simpl in Hlen. lia.
    + destruct (decide (n mod sz = 0)%nat) as [Hz|Hnz]; constructor; [|constructor].
      assert (Hlen : length (drop (n / sz * sz) inputs) = (n mod sz)%nat)
        by (rewrite length_drop; fold n; lia).
      split; [|lia]. intros Heq. rewrite Heq in Hlen. simpl in Hlen. lia.
Qed.

(** X2: [chunkInputs] returns no chunk for an empty list, one chunk for a
    non-empty list when the chunk size is zero or negative, and otherwise
    [n / size] rounded up. *)
Theorem chunkInputs_count (size : Z) inputs :
  let n := length inputs in
  let sz := Z.to_nat size in
  ∃ chunks,
    chunkInputs size inputs = Some chunks
    ∧ length chunks
      = if decide (n = 0)%nat then 0%nat
        else if decide (size ≤ 0) then 1%nat
        else ((n + sz - 1) / sz)%nat.
Proof.
  intros n sz.
  destruct (chunkInputs_cases size inputs)
    as [[-> ->]|[(Hne & Hg & ->)|(Hn & Hsize & ->)]].
  - by exists [].
  - exists [inputs]. split; [done|]. fold n sz in Hg.
    destruct (decide (n = 0)%nat) as [Hz|Hnz].
    { destruct inputs; [done | simpl in Hz; subst n; simpl in *; lia]. }
    destruct (decide (size ≤ 0)) as [|Hs]; [done|]. simpl.
    assert (Hsz : Z.of_nat sz = size) by (subst sz; lia).
    clearbody sz n.
    apply (Nat.div_unique _ _ 1%nat (n - 1)%nat); lia.
  - fold n sz in Hn, Hsize |- *.
    assert (Hpos : (0 < sz)%nat) by (subst sz; lia).
    pose proof (Nat.div_mod_eq n sz) as Hdm.
    pose proof (Nat.mod_upper_bound n sz ltac:(lia)) as Hmod.
    eexists. split; [done|].
    rewrite length_app, length_fmap, length_seq.
    destruct (decide (n = 0)%nat); [lia|]. destruct (decide (size ≤ 0)); [lia|].
    destruct (decide (n mod sz = 0)%nat) as [Hz|Hnz]; simpl.
    + rewrite Nat.add_0_r.
      apply (Nat.div_unique _ _ (n / sz)%nat (sz - 1)%nat); nia.
    + apply (Nat.div_unique _ _ (n / sz + 1)%nat (n mod sz - 1)%nat); nia.
Qed.

End ChunkerMore.

(** ** More on the aggregator and the batch driver *)

Section PropertiesMore.
Context {value gotype Address CallOpts : Type}.
Context (ConvertType : value → gotype → option value).
Context (Aggregate3 : list (@event Address CallOpts) → CallOpts →
                      list (@Multicall3Call3 Address) →
                      string + list Multicall3Result).

Abbreviation state := (@state value gotype Address CallOpts).
Abbreviation Call := (@Call value gotype Address).
Abbreviation Unpack := (Unpack (Address:=Address) (CallOpts:=CallOpts) ConvertType).
Abbreviation Pack := (@Pack value gotype Address CallOpts).
Abbreviation pack_loop := (@pack_loop value gotype Address CallOpts).
Abbreviation demux_loop := (demux_loop (Address:=Address) (CallOpts:=CallOpts) ConvertType).
Abbreviation Caller_Call := (Caller_Call ConvertType Aggregate3).
Abbreviation chunked_loop := (chunked_loop ConvertType Aggregate3).
Abbreviation CallChunked := (CallChunked ConvertType Aggregate3).
Abbreviation chunks_ok := (chunks_ok ConvertType Aggregate3).

Implicit Types (σ : state) (p q : loc) (c : Call) (calls : list loc).

Ltac mred :=
  unfold mbind, M_bind, mret, M_ret, load_call, reflect_struct,
    deref_contract, panic_with, dest_fields; cbn beta iota.

(** *** The request *)

Lemma Pack_packs_to p σ b :
  Pack p σ = Done (inr b) σ
  ↔ ∃ c k, calls_heap σ !! p = Some c ∧ CallContract c = Some k
           ∧ abi_Pack (abi k) (Method c) (Inputs c) = inr b.
Proof.
  split.
  - intros H. destruct (Pack_inv _ _ _ _ H) as (_ & c & k & Hc & Hk & Hr).
    exists c, k. split; [done|]. split; [done|].
    destruct (abi_Pack _ _ _); congruence.
  - intros (c & k & Hc & Hk & Hb). unfold Pack. mred.
    rewrite Hc, Hk. mred. by rewrite Hb.
Qed.

Lemma pack_loop_shape i calls acc σ mc :
  pack_loop i calls acc σ = Done (inr mc) σ
  ↔ ∃ entries, mc = acc ++ entries ∧ Forall2 (packs_to σ) calls entries.
Proof.
  revert i acc. induction calls as [|p calls IH]; intros i acc.
  - simpl. unfold mret, M_ret. split.
    + intros [= <-]. exists []. split; [by rewrite app_nil_r | constructor].
    + intros (entries & -> & HF). inversion HF. by rewrite app_nil_r.
  - simpl. split.
    + unfold mbind at 1, M_bind at 1.
      destruct (Pack p σ) as [[e|b] σ1|x σ1] eqn:EP; [done| |done].
      destruct (Pack_inv _ _ _ _ EP) as (-> & c & k & Hc & Hk & Hr).
      unfold mbind at 1, M_bind at 1, load_call. rewrite Hc.
      unfold mbind at 1, M_bind at 1, deref_contract. rewrite Hk. mred.
      intros H. apply IH in H as (entries & -> & HF).
      exists (mkCall3 (address k) (CanFail c) b :: entries).
      split; [by rewrite <- app_assoc|]. constructor; [|done].
      exists c, k, b. repeat split; try done.
      destruct (abi_Pack _ _ _); congruence.
    + intros (entries & -> & HF).
      inversion HF as [|? m ? rest (c & k & b & Hc & Hk & Hb & ->) HF']; subst.
      assert (HP : Pack p σ = Done (inr b) σ) by (apply Pack_packs_to; eauto).
      rewrite (bind_Done _ _ _ _ _ HP).
      unfold mbind at 1, M_bind at 1, load_call. rewrite Hc.
      unfold mbind at 1, M_bind at 1, deref_contract. rewrite Hk. mred.
      apply IH. exists rest. split; [by rewrite <- app_assoc | done].
Qed.

Lemma Call_request_shape_aux calls σ multiCalls :
  pack_loop 0 calls [] σ = Done (inr multiCalls) σ →
  Forall2 (packs_to σ) calls multiCalls.
Proof.
  rewrite pack_loop_shape. by intros (entries & -> & HF).
Qed.


(** X3: the packing loop of [Call] returns a request exactly when every
    unit packs, and the request then has one entry per unit, in the order
    of the units, made of the address of the unit's contract, its
    fault-tolerance flag and its packed inputs. *)
Theorem Call_request_shape calls σ multiCalls :
  pack_loop 0 calls [] σ = Done (inr multiCalls) σ
  ↔ Forall2 (packs_to σ) calls multiCalls.
Proof.
  rewrite pack_loop_shape. split.
  - by intros (entries & -> & HF).
  - intros HF. by exists multiCalls.
Qed.

(** *** The trace *)

Lemma Unpack_trace p b σ : trace (final_state (Unpack p b σ)) = trace σ.
Proof. destruct (Unpack_frame ConvertType p b σ) as (d & [_ T _ _] & _). exact T. Qed.

Lemma demux_trace calls i results σ :
  trace (final_state (demux_loop calls i results σ)) = trace σ.
Proof.
  revert i σ. induction results as [|r rest IH]; intros i σ; [done|].
  rewrite demux_loop_cons.
  destruct (calls !! i) as [p|]; [|done].
  destruct (calls_heap σ !! p) as [c|]; [|done].
  destruct (Success r); [|by rewrite IH].
  pose proof (Unpack_trace p (ReturnData r) (flagged p false c σ)) as HU.
  destruct (Unpack p (ReturnData r) _) as [[e|] σ2|x σ2]; simpl in HU;
    [done | by rewrite IH | done].
Qed.

(** X4: [Call] sends exactly one request when every unit packs, whatever
    happens afterwards, and nothing otherwise; it never pauses. *)
Theorem Call_one_exchange opts calls σ :
  let σf := final_state (Caller_Call opts calls σ) in
  match pack_loop 0 calls [] σ with
  | Done (inr multiCalls) _ => trace σf = trace σ ++ [EvAggregate3 opts multiCalls]
  | _ => trace σf = trace σ
  end.
Proof.
  intros σf. subst σf. unfold Caller_Call, mbind, M_bind, mret, M_ret, aggregate3.
  pose proof (pack_loop_final 0 calls [] σ) as HP.
  destruct (pack_loop 0 calls [] σ) as [[e0|mc] σ1|x σ1]; simpl in HP; subst σ1;
    [done | | done].
  destruct (Aggregate3 _ _ _) as [err|results]; [done|].
  pose proof (demux_trace calls 0 results (sent opts mc σ)) as HD.
  fold (sent opts mc σ).
  by destruct (demux_loop calls 0 results (sent opts mc σ)).
Qed.

(** X5: on an empty unit list [Call] still sends a request, an empty one,
    returns the error of the remote call if it fails, and panics on
    [calls[0]] if the response has an entry; [CallChunked] on an empty
    unit list returns at once with no unit, no error and no exchange. *)
Theorem empty_dispatch opts chunkSize cooldown σ :
  Caller_Call opts [] σ
  = match Aggregate3 (trace σ) opts [] with
    | inl err => Done ([], Some ("multicall failed: " +:+ err)) (sent opts [] σ)
    | inr [] => Done ([], None) (sent opts [] σ)
    | inr (_ :: _) => Panic (PanicCallsIndex 0 0) (sent opts [] σ)
    end
  ∧ CallChunked opts chunkSize cooldown [] σ = Done ([], None) σ.
Proof.
  split; [|done].
  unfold Caller_Call, mbind, M_bind, mret, M_ret, aggregate3. simpl.
  destruct (Aggregate3 _ _ _) as [err|[|r rest]]; done.
Qed.

(** The loop stops at the first unit whose [Pack] panics. *)
Lemma pack_loop_panic i0 calls mc σ i p x :
  calls !! i = Some p →
  (∀ j q, (j < i)%nat → calls !! j = Some q → ∃ b, Pack q σ = Done (inr b) σ) →
  Pack p σ = Panic x σ →
  pack_loop i0 calls mc σ = Panic x σ.
Proof.
  revert i0 i mc. induction calls as [|q calls IH]; intros i0 i mc Hi Hbefore Hp; [done|].
  destruct i as [|i]; simpl in *.
  - injection Hi as ->. unfold mbind, M_bind. by rewrite Hp.
  - destruct (Hbefore 0%nat q ltac:(lia) eq_refl) as [b Hq].
    rewrite (bind_Done _ _ _ _ _ Hq).
    destruct (Pack_inv _ _ _ _ Hq) as (_ & c & k & Hc & Hk & _).
    unfold mbind at 1, M_bind at 1, load_call. rewrite Hc.
    unfold mbind at 1, M_bind at 1, deref_contract. rewrite Hk. mred.
    apply (IH (S i0) i); [done | | done].
    intros j q' Hj Hq'. apply (Hbefore (S j) q'); [lia | done].
Qed.

(** X6: when the first unit that does not pack is a nil pointer, or a
    unit whose contract is nil, [Call] panics on the nil dereference while
    it packs: nothing has been sent and no unit has been written. *)
Theorem Call_nil_unit opts calls σ i p :
  calls !! i = Some p →
  (∀ j q, (j < i)%nat → calls !! j = Some q → ∃ b, Pack q σ = Done (inr b) σ) →
  (calls_heap σ !! p = None →
   Caller_Call opts calls σ = Panic PanicNilCall σ)
  ∧ (∀ c, calls_heap σ !! p = Some c → CallContract c = None →
          Caller_Call opts calls σ = Panic PanicNilContract σ).
Proof.
  intros Hi Hbefore. split.
  - intros Hnil. unfold Caller_Call, mbind, M_bind.
    rewrite (pack_loop_panic 0 calls [] σ i p PanicNilCall); [done..|].
    unfold Pack. mred. by rewrite Hnil.
  - intros c Hc Hk. unfold Caller_Call, mbind, M_bind.
    rewrite (pack_loop_panic 0 calls [] σ i p PanicNilContract); [done..|].
    unfold Pack. mred. by rewrite Hc, Hk.
Qed.

(** *** What a dispatch leaves alone *)

Lemma touches_same_heaps P σ σ' :
  calls_heap σ' = calls_heap σ → structs_heap σ' = structs_heap σ →
  touches P σ σ'.
Proof.
  intros Hc Hs. split; rewrite ?Hc, ?Hs.
  - done.
  - intros q. apply flag_refl_heap.
  - done.
  - intros l. apply shape_refl_heap.
Qed.

Lemma pause_inv i cooldown σ :
  ∃ σ0, pause i cooldown σ = Done () σ0
        ∧ calls_heap σ0 = calls_heap σ ∧ structs_heap σ0 = structs_heap σ
        ∧ trace σ0 = trace σ ++ (if (0 <? i)%nat && (0 <? cooldown)
                                 then [EvSleep cooldown] else []).
Proof.
  unfold pause, sleep, mret, M_ret. destruct (_ && _); eexists; simpl.
  - done.
  - by rewrite app_nil_r.
Qed.

Lemma Call_trace_prefix opts calls σ :
  trace σ `prefix_of` trace (final_state (Caller_Call opts calls σ)).
Proof.
  unfold Caller_Call, mbind, M_bind, mret, M_ret, aggregate3.
  pose proof (pack_loop_final 0 calls [] σ) as HP.
  destruct (pack_loop 0 calls [] σ) as [[e0|mc] σ1|x σ1]; simpl in HP; subst σ1;
    [done | | done].
  destruct (Aggregate3 _ _ _) as [err|results]; [by eexists|].
  pose proof (demux_trace calls 0 results (sent opts mc σ)) as HD.
  fold (sent opts mc σ).
  destruct (demux_loop calls 0 results (sent opts mc σ)); simpl in *;
    rewrite HD; by eexists.
Qed.

Lemma chunked_loop_touches opts cooldown calls i chunks allCalls σ :
  (∀ chunk, chunk ∈ chunks → chunk ⊆ calls) →
  touches calls σ (final_state (chunked_loop opts cooldown calls i chunks allCalls σ))
  ∧ trace σ `prefix_of`
      trace (final_state (chunked_loop opts cooldown calls i chunks allCalls σ)).
Proof.
  revert i allCalls σ.
  induction chunks as [|chunk rest IH]; intros i allCalls σ Hsub.
  - split; [apply touches_refl | done].
  - simpl. destruct (pause_inv i cooldown σ) as (σ0 & Hp & Hc0 & Hs0 & Ht0).
    rewrite (bind_Done _ _ _ _ _ Hp). unfold mbind, M_bind.
    assert (H0 : touches calls σ σ0) by by apply touches_same_heaps.
    assert (T0 : trace σ `prefix_of` trace σ0) by (rewrite Ht0; by eexists).
    pose proof (Call_touches ConvertType Aggregate3 opts chunk σ0) as HC.
    pose proof (Call_trace_prefix opts chunk σ0) as TC.
    assert (H1 : touches calls σ0 (final_state (Caller_Call opts chunk σ0))).
    { eapply touches_mono; [|exact HC]. apply Hsub. left. }
    destruct (Caller_Call opts chunk σ0) as [[ck [e|]] σ1|x σ1]; simpl in *.
    + split; [by eapply touches_trans | by etrans].
    + destruct (IH (S i) (allCalls ++ ck) σ1) as [H2 T2].
      { intros ch Hch. apply Hsub. by right. }
      split; [|by do 2 (etrans; [eassumption|])].
      eapply touches_trans; [exact H0|]. by eapply touches_trans.
    + split; [by eapply touches_trans | by etrans].
Qed.

Lemma chunk_subseteq_concat (chunks : list (list loc)) chunk :
  chunk ∈ chunks → chunk ⊆ concat chunks.
Proof.
  intros Hin q Hq. apply list_elem_of_In, in_concat.
  exists chunk. split; by apply list_elem_of_In.
Qed.

(** X7: whatever its outcome, return or panic, [Call] changes nothing
    in a unit but its failure flag, changes no unit that is not in its
    list, changes no struct that is not the output destination of a unit
    of its list, leaves the field types of every struct as they were, and
    only adds to the trace. *)
Theorem Call_frame opts calls σ :
  let σf := final_state (Caller_Call opts calls σ) in
  (∀ q, q ∉ calls → calls_heap σf !! q = calls_heap σ !! q)
  ∧ (∀ q, option_Forall2 (λ c c', ∃ b, c' = set_Failed b c)
            (calls_heap σ !! q) (calls_heap σf !! q))
  ∧ (∀ l, (∀ q c, q ∈ calls → calls_heap σ !! q = Some c →
                  Outputs c ≠ OutPointer l) →
          structs_heap σf !! l = structs_heap σ !! l)
  ∧ (∀ l, option_Forall2 (λ fs fs', shape fs' = shape fs)
            (structs_heap σ !! l) (structs_heap σf !! l))
  ∧ trace σ `prefix_of` trace σf.
Proof.
  intros σf. destruct (Call_touches ConvertType Aggregate3 opts calls σ)
    as [H1 H2 H3 H4].
  repeat split; try done. apply Call_trace_prefix.
Qed.

(** X8: the same holds of [CallChunked] and the whole unit list, however
    many chunks were dispatched before it returned or panicked. *)
Theorem CallChunked_frame opts chunkSize cooldown calls σ :
  let σf := final_state (CallChunked opts chunkSize cooldown calls σ) in
  (∀ q, q ∉ calls → calls_heap σf !! q = calls_heap σ !! q)
  ∧ (∀ q, option_Forall2 (λ c c', ∃ b, c' = set_Failed b c)
            (calls_heap σ !! q) (calls_heap σf !! q))
  ∧ (∀ l, (∀ q c, q ∈ calls → calls_heap σ !! q = Some c →
                  Outputs c ≠ OutPointer l) →
          structs_heap σf !! l = structs_heap σ !! l)
  ∧ (∀ l, option_Forall2 (λ fs fs', shape fs' = shape fs)
            (structs_heap σ !! l) (structs_heap σf !! l))
  ∧ trace σ `prefix_of` trace σf.
Proof.
  intros σf. subst σf. unfold CallChunked.
  destruct (chunkInputs_concat chunkSize calls) as (chunks & -> & Hcat).
  destruct (chunked_loop_touches opts cooldown calls 0 chunks [] σ)
    as [[H1 H2 H3 H4] HT].
  { intros chunk Hin. rewrite <- Hcat. by apply chunk_subseteq_concat. }
  repeat split; done.
Qed.

(** *** What CallChunked returns *)

Lemma chunked_loop_result opts cooldown calls i chunks allCalls σ r e σ' :
  chunked_loop opts cooldown calls i chunks allCalls σ = Done (r, e) σ' →
  (e = None ∧ r = allCalls ++ concat chunks)
  ∨ (r = calls
     ∧ ∃ j e', (i ≤ j < i + length chunks)%nat
               ∧ e = Some ("call chunk [" +:+ pretty j +:+ "] failed: " +:+ e')).
Proof.
  revert i allCalls σ.
  induction chunks as [|chunk rest IH]; intros i allCalls σ.
  - simpl. unfold mret, M_ret. intros [= <- <- <-]. left.
    by rewrite app_nil_r.
  - simpl. destruct (pause_inv i cooldown σ) as (σ0 & Hp & _).
    rewrite (bind_Done _ _ _ _ _ Hp). unfold mbind, M_bind.
    destruct (Caller_Call opts chunk σ0) as [[ck [e0|]] σ1|x σ1] eqn:EC;
      simpl; [| |done].
    + unfold mret, M_ret. intros [= <- <- <-]. right. split; [done|].
      exists i, e0. split; [lia | done].
    + intros H. apply IH in H as [[-> ->]|(-> & j & e' & Hj & ->)].
      * left. split; [done|].
        rewrite (Call_returns_calls _ _ _ _ _ _ _ _ EC).
        by rewrite <- app_assoc.
      * right. split; [done|]. exists j, e'. split; [lia | done].
Qed.

(** X9: whenever [CallChunked] returns, with or without an error, the
    list it returns is the list it was given; an error it returns names a
    chunk that exists. *)
Theorem CallChunked_returns_input opts chunkSize cooldown calls σ r e σ' :
  CallChunked opts chunkSize cooldown calls σ = Done (r, e) σ' →
  r = calls
  ∧ (e = None
     ∨ ∃ chunks j e',
         chunkInputs chunkSize calls = Some chunks
         ∧ (j < length chunks)%nat
         ∧ e = Some ("call chunk [" +:+ pretty j +:+ "] failed: " +:+ e')).
Proof.
  unfold CallChunked.
  destruct (chunkInputs_concat chunkSize calls) as (chunks & Hch & Hcat).
  rewrite Hch. intros H.
  apply chunked_loop_result in H as [[-> ->]|(-> & j & e' & Hj & ->)].
  - split; [done | by left].
  - split; [done|]. right. exists chunks, j, e'. split; [done|].
    split; [lia | done].
Qed.

(** X10: when the chunk size is zero or negative, or exceeds the number
    of units, or there is a single unit, [CallChunked] is one [Call] on
    the whole list without any pause: same outcome and same final state,
    an error being wrapped as that of chunk 0. *)
Theorem CallChunked_single_chunk opts chunkSize cooldown calls σ :
  calls ≠ [] →
  chunkSize ≤ 0 ∨ (length calls < 2)%nat ∨ Z.of_nat (length calls) < chunkSize →
  CallChunked opts chunkSize cooldown calls σ
  = match Caller_Call opts calls σ with
    | Done (r, None) σ' => Done (r, None) σ'
    | Done (_, Some e) σ' =>
        Done (calls, Some ("call chunk [0] failed: " +:+ e)) σ'
    | Panic x σ' => Panic x σ'
    end.
Proof.
  intros Hne Hg. unfold CallChunked.
  rewrite (chunkInputs_single chunkSize calls Hne Hg). simpl.
  unfold pause. simpl. unfold mbind, M_bind, mret, M_ret.
  by destruct (Caller_Call opts calls σ) as [[r [e|]] σ1|x σ1].
Qed.

(** *** The order of the exchanges *)





(** *** The failure flags after a dispatch *)

Lemma NoDup_not_later calls i p :
  NoDup calls → calls !! i = Some p → p ∉ drop (S i) calls.
Proof.
  intros Hnd Hi Hin. apply list_elem_of_lookup in Hin as [k Hk].
  rewrite lookup_drop in Hk.
  pose proof (NoDup_lookup _ _ _ _ Hnd Hi Hk). lia.
Qed.

Lemma Unpack_calls_heap p b σ :
  calls_heap (final_state (Unpack p b σ)) = calls_heap σ.
Proof. destruct (Unpack_frame ConvertType p b σ) as (d & [C _ _ _] & _). exact C. Qed.

Lemma demux_flags calls i results σ σ' :
  NoDup calls →
  demux_loop calls i results σ = Done None σ' →
  ∀ j r, results !! j = Some r →
         ∃ p, calls !! (i + j)%nat = Some p
              ∧ Failed <$> calls_heap σ' !! p = Some (negb (Success r)).
Proof.
  intros Hnd. revert i σ. induction results as [|r0 rest IH]; intros i σ; [done|].
  rewrite demux_loop_cons.
  destruct (calls !! i) as [p|] eqn:Hi; [|done].
  destruct (calls_heap σ !! p) as [c|] eqn:Hc; [|done].
  assert (Hlater : ∀ σ1 b, calls_heap σ1 !! p = Some (set_Failed b c) →
            demux_loop calls (S i) rest σ1 = Done None σ' →
            ∀ j r, (r0 :: rest) !! j = Some r → b = negb (Success r0) →
            ∃ q, calls !! (i + j)%nat = Some q
                 ∧ Failed <$> calls_heap σ' !! q = Some (negb (Success r))).
  { intros σ1 b H1 Hrest j r Hj Hb. destruct j as [|j]; simpl in Hj.
    - injection Hj as <-. exists p. rewrite Nat.add_0_r. split; [done|].
      pose proof (demux_touches ConvertType calls (S i) rest σ1) as [HC _ _ _].
      rewrite Hrest in HC. simpl in HC. rewrite HC, H1; [by rewrite Hb|].
      intros Hin. apply subseteq_take in Hin.
      by apply (NoDup_not_later calls i p).
    - replace (i + S j)%nat with (S i + j)%nat by lia. by eapply IH. }
  destruct (Success r0) eqn:Hs.
  - pose proof (Unpack_calls_heap p (ReturnData r0) (flagged p false c σ)) as HU.
    destruct (Unpack p (ReturnData r0) _) as [[e|] σ2|x σ2]; [done| |done].
    simpl in HU. intros Hrest j r Hj.
    apply (Hlater σ2 false); [|done..].
    rewrite HU. simpl. apply lookup_insert_eq.
  - intros Hrest j r Hj. apply (Hlater (flagged p true c σ) true); [|done..].
    simpl. apply lookup_insert_eq.
Qed.

(** X12: when no unit is listed twice and [Call] returns without error,
    the failure flag of every unit that has an entry in the response is
    the negation of the success flag of that entry. *)
Theorem Call_flags_reflect_response opts calls σ multiCalls results r σ' :
  NoDup calls →
  dispatched Aggregate3 opts calls σ multiCalls results →
  Caller_Call opts calls σ = Done (r, None) σ' →
  ∀ j res, results !! j = Some res →
           ∃ p, calls !! j = Some p
                ∧ Failed <$> calls_heap σ' !! p = Some (negb (Success res)).
Proof.
  intros Hnd Hd Hcall j res Hj.
  rewrite (Call_dispatched ConvertType Aggregate3 _ _ _ _ _ Hd) in Hcall.
  destruct (demux_loop calls 0 results (sent opts multiCalls σ))
    as [e σ2|x σ2] eqn:E; [|done].
  injection Hcall as _ -> ->.
  apply (demux_flags calls 0 results _ σ' Hnd E j res Hj).
Qed.

(** *** A dispatch in which every unit succeeds *)

Lemma Unpack_ready p r l fs out σ :
  unit_ready ConvertType σ p r l fs out →
  ∃ fs', Unpack p (ReturnData r) σ
         = Done None (mkState (calls_heap σ) (<[l := fs']> (structs_heap σ))
                              (trace σ))
         ∧ assigned ConvertType fs out fs'.
Proof.
  intros (c & k & Hc & Ho & Hl & Hk & Hout & Hlen & Hconv).
  destruct (unpack_fields_seq ConvertType l out (length fs) 0 σ fs Hl ltac:(lia))
    as (fs' & Hrun & Hlen' & _ & Hin).
  { intros i f Hi Hf.
    destruct (lookup_lt_is_Some_2 out i ltac:(lia)) as [v Hv].
    destruct (Hconv i f v Hf Hv) as [He Hs]. eauto. }
  exists fs'. split.
  - unfold Unpack. mred. rewrite Hc, Ho. simpl. rewrite Hl, Hk. mred.
    rewrite Hout. simpl. rewrite Hl. simpl. by rewrite Hrun.
  - split; [done|]. intros i f Hf. apply Hin; [|done].
    apply lookup_lt_Some in Hf. lia.
Qed.

Lemma unit_ready_step p r l fs out σ q c b l' fs' :
  unit_ready ConvertType σ p r l fs out →
  calls_heap σ !! q = Some c → l' ≠ l →
  unit_ready ConvertType
    (mkState (<[q := set_Failed b c]> (calls_heap σ))
             (<[l' := fs']> (structs_heap σ)) (trace σ)) p r l fs out.
Proof.
  intros (c0 & k & Hc & Ho & Hl & Hk & Hout & Hrest) Hq Hne.
  destruct (decide (q = p)) as [->|Hqp].
  - assert (c0 = c) as -> by congruence.
    exists (set_Failed b c), k. simpl. rewrite lookup_insert_eq.
    rewrite lookup_insert_ne by done. by destruct c.
  - exists c0, k. simpl. rewrite !lookup_insert_ne by done. done.
Qed.

Lemma demux_all_ready calls i results (ls : list loc) σ :
  NoDup calls → NoDup ls →
  (∀ j r, results !! j = Some r →
          Success r = true
          ∧ ∃ p l fs out, calls !! (i + j)%nat = Some p ∧ ls !! j = Some l
                          ∧ unit_ready ConvertType σ p r l fs out) →
  ∃ σ', demux_loop calls i results σ = Done None σ'
        ∧ ∀ j r p l fs out,
            results !! j = Some r → calls !! (i + j)%nat = Some p →
            ls !! j = Some l → unit_ready ConvertType σ p r l fs out →
            Failed <$> calls_heap σ' !! p = Some false
            ∧ ∃ fs', structs_heap σ' !! l = Some fs'
                     ∧ assigned ConvertType fs out fs'.
Proof.
  intros Hnd. revert i ls σ.
  induction results as [|r0 rest IH]; intros i ls σ Hls Hall.
  - exists σ. split; [done|]. intros j r p l fs out Hj. done.
  - destruct (Hall 0%nat r0 eq_refl) as (Hs0 & p0 & l0 & fs0 & out0 & Hp0 & Hl0 & Hr0).
    rewrite Nat.add_0_r in Hp0.
    destruct ls as [|l0' ls']; [done|]. injection Hl0 as ->.
    apply NoDup_cons in Hls as [Hl0notin Hls'].
    pose proof Hr0 as (c0 & k0 & Hc0 & Ho0 & Hfs0 & _).
    set (σ1 := flagged p0 false c0 σ).
    assert (Hr1 : unit_ready ConvertType σ1 p0 r0 l0 fs0 out0).
    { destruct Hr0 as (c & k & Hc & Ho & Hl & Hk & Hrest).
      assert (c = c0) as -> by congruence.
      exists (set_Failed false c0), k. simpl. rewrite lookup_insert_eq.
      by destruct c0. }
    destruct (Unpack_ready p0 r0 l0 fs0 out0 σ1 Hr1) as (fs0' & HU & Has0).
    set (σ2 := mkState (calls_heap σ1) (<[l0 := fs0']> (structs_heap σ1)) (trace σ1)) in *.
    assert (Hkeep : ∀ j r p l fs out,
              rest !! j = Some r → ls' !! j = Some l →
              unit_ready ConvertType σ p r l fs out →
              unit_ready ConvertType σ2 p r l fs out).
    { intros j r p l fs out Hj Hl Hr.
      apply (unit_ready_step p r l fs out σ p0 c0 false l0 fs0' Hr Hc0).
      intros ->. apply Hl0notin. by eapply list_elem_of_lookup_2. }
    destruct (IH (S i) ls' σ2 Hls') as (σ' & Hrun & Hpost).
    { intros j r Hj.
      destruct (Hall (S j) r Hj) as (Hs & p & l & fs & out & Hp & Hl & Hr).
      split; [done|]. exists p, l, fs, out.
      replace (S i + j)%nat with (i + S j)%nat by lia.
      split; [done|]. split; [done|]. by eapply Hkeep. }
    exists σ'. split.
    { rewrite demux_loop_cons, Hp0, Hc0, Hs0. fold σ1. by rewrite HU. }
    intros j r p l fs out Hj Hp Hl Hr. destruct j as [|j]; simpl in Hj, Hl.
    + injection Hj as <-. injection Hl as <-.
      rewrite Nat.add_0_r in Hp. assert (p = p0) as -> by congruence.
      destruct Hr as (c & k & Hc & Ho & Hl & Hk & Hout & _).
      assert (c = c0) as -> by congruence.
      assert (fs = fs0) as -> by congruence.
      destruct Hr0 as (c & k' & Hc' & Ho' & Hl' & Hk' & Hout' & _).
      assert (c = c0) as -> by congruence.
      assert (k' = k) as -> by congruence.
      assert (out = out0) as -> by congruence.
      pose proof (demux_touches ConvertType calls (S i) rest σ2) as [HC _ HS _].
      rewrite Hrun in HC, HS. simpl in HC, HS. split.
      * rewrite HC; [simpl; by rewrite lookup_insert_eq|].
        intros Hin. apply subseteq_take in Hin.
        by apply (NoDup_not_later calls i p0).
      * exists fs0'. split; [|exact Has0].
        rewrite HS; [simpl; by rewrite lookup_insert_eq|].
        intros q c Hq Hcq Hoq.
        apply elem_of_take in Hq as (j & Hq & Hjlt).
        rewrite lookup_drop in Hq.
        destruct (lookup_lt_is_Some_2 rest j Hjlt) as [r Hrj].
        destruct (Hall (S j) r Hrj) as (_ & q' & l & fs & out1 & Hq' & Hl1 & Hr1').
        replace (i + S j)%nat with (S i + j)%nat in Hq' by lia.
        assert (q' = q) as -> by congruence.
        pose proof (Hkeep j r q l fs out1 Hrj Hl1 Hr1') as (c1 & _ & Hc1 & Ho1 & _).
        assert (c1 = c) as ->
          by (unfold σ2, σ1, flagged in *; simpl in *; congruence).
        assert (l = l0) as -> by congruence.
        apply Hl0notin. by eapply list_elem_of_lookup_2.
    + replace (i + S j)%nat with (S i + j)%nat in Hp by lia.
      eapply Hpost; [done..|]. by eapply Hkeep.
Qed.

(** X13: when no unit is listed twice, no two units write to the same
    struct, and every entry of the response is a success whose bytes
    decode to values that fit the fields of the unit's struct, [Call]
    returns the unit list without error, every unit with an entry has its
    failure flag cleared, and its struct holds the decoded values, field
    by field. *)
Theorem Call_all_succeed opts calls σ multiCalls results (ls : list loc) :
  NoDup calls → NoDup ls →
  dispatched Aggregate3 opts calls σ multiCalls results →
  (∀ j r, results !! j = Some r →
          Success r = true
          ∧ ∃ p l fs out, calls !! j = Some p ∧ ls !! j = Some l
                          ∧ unit_ready ConvertType σ p r l fs out) →
  ∃ σ', Caller_Call opts calls σ = Done (calls, None) σ'
        ∧ ∀ j r p l fs out,
            results !! j = Some r → calls !! j = Some p →
            unit_ready ConvertType σ p r l fs out →
            Failed <$> calls_heap σ' !! p = Some false
            ∧ ∃ fs', structs_heap σ' !! l = Some fs'
                     ∧ assigned ConvertType fs out fs'.
Proof.
  intros Hnd Hls Hd Hall.
  destruct (demux_all_ready calls 0 results ls (sent opts multiCalls σ) Hnd Hls)
    as (σ' & Hrun & Hpost).
  { intros j r Hj. destruct (Hall j r Hj) as (Hs & p & l & fs & out & Hp & Hl & Hr).
    split; [done|]. exists p, l, fs, out. split; [done|]. split; [done|]. exact Hr. }
  exists σ'. split.
  - by rewrite (Call_dispatched ConvertType Aggregate3 _ _ _ _ _ Hd), Hrun.
  - intros j r p l fs out Hj Hp Hr.
    destruct (Hall j r Hj) as (_ & p' & l' & fs1 & out1 & Hp' & Hl' & Hr').
    assert (p' = p) as -> by congruence.
    assert (l' = l) as ->.
    { destruct Hr as (c & _ & Hc & Ho & _), Hr' as (c' & _ & Hc' & Ho' & _).
      congruence. }
    apply (Hpost j r p l fs out Hj Hp Hl'). exact Hr.
Qed.

(** *** More on Unpack *)

Lemma unpack_fields_app d out idx1 idx2 σ :
  unpack_fields ConvertType d out (idx1 ++ idx2) σ
  = match unpack_fields ConvertType d out idx1 σ with
    | Done _ σ1 => unpack_fields ConvertType d out idx2 σ1
    | Panic x σ1 => Panic x σ1
    end.
Proof.
  revert σ. induction idx1 as [|i idx1 IH]; intros σ; [done|].
  simpl. unfold mbind, M_bind.
  destruct (unpack_field ConvertType d out i σ) as [[] σ1|x σ1]; [apply IH | done].
Qed.

(** X14: when the destination struct has more fields than there are
    decoded values, and the values that are there fit their fields,
    [Unpack] panics on [out[len(out)]], index out of range, after it has
    assigned the first [len(out)] fields; the other fields are as before. *)
Theorem Unpack_short_output p b σ c l fs k out :
  calls_heap σ !! p = Some c →
  Outputs c = OutPointer l →
  structs_heap σ !! l = Some fs →
  CallContract c = Some k →
  abi_Unpack (abi k) (Method c) b = inr out →
  (length out < length fs)%nat →
  (∀ i f v, fs !! i = Some f → out !! i = Some v →
            field_exported f = true ∧ is_Some (ConvertType v (field_Type f))) →
  ∃ fs',
    Unpack p b σ
    = Panic (PanicOutIndex (length out) (length out))
            (mkState (calls_heap σ) (<[l := fs']> (structs_heap σ)) (trace σ))
    ∧ length fs' = length fs
    ∧ (∀ i f, (i < length out)%nat → fs !! i = Some f →
         ∃ v v', out !! i = Some v ∧ ConvertType v (field_Type f) = Some v'
                 ∧ fs' !! i = Some (set_field_value v' f))
    ∧ (∀ i, (length out ≤ i)%nat → fs' !! i = fs !! i).
Proof.
  intros Hc Ho Hl Hk Hout Hlen Hconv.
  destruct (unpack_fields_seq ConvertType l out (length out) 0 σ fs Hl ltac:(lia))
    as (fs' & Hrun & Hlen' & Hrest & Hin).
  { intros i f Hi Hf.
    destruct (lookup_lt_is_Some_2 out i ltac:(lia)) as [v Hv].
    destruct (Hconv i f v Hf Hv) as [He Hs]. eauto. }
  exists fs'. split; [|split; [done|split]].
  - unfold Unpack. mred. rewrite Hc, Ho. simpl. rewrite Hl, Hk. mred.
    rewrite Hout. simpl. rewrite Hl. simpl.
    replace (length fs) with (length out + S (length fs - S (length out)))%nat
      by lia.
    rewrite seq_app, unpack_fields_app, Hrun. simpl.
    unfold mbind, M_bind, unpack_field. mred. simpl.
    rewrite lookup_insert_eq. simpl.
    destruct (lookup_lt_is_Some_2 fs' (length out) ltac:(lia)) as [f ->].
    by rewrite (lookup_ge_None_2 out (length out)) by lia.
  - intros i f Hi Hf. apply Hin; [lia | done].
  - intros i Hi. apply Hrest. lia.
Qed.

(** X15: when the output destination is a struct held by value rather
    than a pointer to one, [Unpack] cannot assign its fields: once the
    bytes decode, it returns nil only for a struct without fields and
    otherwise panics at the first field, on [out[0]] if there is no
    decoded value, in the conversion if the value does not fit, and in
    [Set] if it does; in no case is anything written. *)
Theorem Unpack_by_value p b σ c fs k out :
  calls_heap σ !! p = Some c →
  Outputs c = OutStruct fs →
  CallContract c = Some k →
  abi_Unpack (abi k) (Method c) b = inr out →
  Unpack p b σ
  = match fs with
    | [] => Done None σ
    | f :: _ =>
        Panic (match out with
               | [] => PanicOutIndex 0 0
               | v :: _ =>
                   match ConvertType v (field_Type f) with
                   | None => PanicConvert
                   | Some _ => PanicSet
                   end
               end) σ
    end.
Proof.
  intros Hc Ho Hk Hout. unfold Unpack. mred. rewrite Hc, Ho. simpl.
  rewrite Hk. mred. rewrite Hout. simpl.
  destruct fs as [|f fs']; [done|]. simpl.
  unfold mbind at 1, M_bind at 1, unpack_field. mred. simpl.
  destruct out as [|v out']; simpl; [done|].
  by destruct (ConvertType v (field_Type f)).
Qed.

(** X16: whatever its outcome, [Unpack] leaves every unit and the trace
    as they were, writes to no struct but the one its unit points to, and
    leaves the field types of every struct as they were. *)
Theorem Unpack_only_own_struct p b σ :
  let σf := final_state (Unpack p b σ) in
  calls_heap σf = calls_heap σ
  ∧ trace σf = trace σ
  ∧ (∀ l, (∀ c, calls_heap σ !! p = Some c → Outputs c ≠ OutPointer l) →
          structs_heap σf !! l = structs_heap σ !! l)
  ∧ (∀ l, option_Forall2 (λ fs fs', shape fs' = shape fs)
            (structs_heap σ !! l) (structs_heap σf !! l)).
Proof.
  intros σf. destruct (Unpack_frame ConvertType p b σ) as (d & [C T O Sh] & Hd).
  split; [done|]. split; [done|]. split; [|done].
  intros l Hl. apply O. intros ->.
  destruct (Hd l eq_refl) as (c & Hc & Ho). by apply (Hl c).
Qed.

(** A successful run of the field loop tells what it found. *)
Lemma unpack_fields_inv l out n a σ σ' (cur : list (@field value gotype)) :
  unpack_fields ConvertType (DestHeap l) out (seq a n) σ = Done () σ' →
  structs_heap σ !! l = Some cur →
  ∀ i f, (a ≤ i < a + n)%nat → cur !! i = Some f →
         field_exported f = true
         ∧ ∃ v, out !! i = Some v ∧ is_Some (ConvertType v (field_Type f)).
Proof.
  revert a σ cur. induction n as [|n IH]; intros a σ cur Hrun Hl i f Hi Hf; [lia|].
  simpl in Hrun. unfold mbind at 1, M_bind at 1 in Hrun.
  destruct (unpack_field ConvertType (DestHeap l) out a σ) as [[] σ1|x σ1] eqn:E;
    [|done].
  revert E. unfold unpack_field. mred. simpl. rewrite Hl. simpl.
  destruct (cur !! a) as [fa|] eqn:Hfa; [|done].
  destruct (out !! a) as [va|] eqn:Hva; [|done].
  destruct (ConvertType va (field_Type fa)) as [va'|] eqn:Hca; [|done].
  destruct (field_exported fa) eqn:Hea; [|done].
  unfold store_struct. intros [= <-].
  destruct (decide (i = a)) as [->|Hne].
  - assert (f = fa) as -> by congruence. split; [done|]. exists va. by rewrite Hca.
  - apply (IH (S a) _ _ Hrun (lookup_insert_eq _ _ _) i f); [lia|].
    by rewrite list_lookup_insert_ne by done.
Qed.

(** X17: unpacking the same bytes a second time changes nothing: when
    [Unpack] returns nil, running it again on the state it left returns
    nil and leaves that state. *)
Theorem Unpack_idempotent p b σ σ1 :
  Unpack p b σ = Done None σ1 →
  Unpack p b σ1 = Done None σ1.
Proof.
  unfold Unpack. mred.
  destruct (calls_heap σ !! p) as [c|] eqn:Hc; [|done].
  destruct (Outputs c) as [l|fs0|] eqn:Ho; simpl; [| |done].
  - destruct (structs_heap σ !! l) as [fs|] eqn:Hl; [|done].
    destruct (CallContract c) as [k|] eqn:Hk; mred; [|done].
    destruct (abi_Unpack (abi k) (Method c) b) as [err|out] eqn:Hout; [done|].
    simpl. rewrite Hl. simpl.
    destruct (unpack_fields ConvertType (DestHeap l) out (seq 0 (length fs)) σ)
      as [[] σ'|x σ'] eqn:Hrun; [|done].
    intros [= <-].
    pose proof (unpack_fields_inv l out (length fs) 0 σ σ' fs Hrun Hl) as Hok.
    destruct (unpack_fields_seq ConvertType l out (length fs) 0 σ fs Hl
                ltac:(lia) Hok) as (fs' & Hrun' & Hlen' & _ & Hin).
    rewrite Hrun in Hrun'. injection Hrun' as ->. simpl.
    rewrite Hc, Ho. simpl. rewrite lookup_insert_eq, Hk. mred. rewrite Hout.
    simpl. rewrite lookup_insert_eq. simpl.
    set (σ1 := mkState (calls_heap σ) (<[l := fs']> (structs_heap σ)) (trace σ)).
    destruct (unpack_fields_seq ConvertType l out (length fs') 0 σ1 fs'
                (lookup_insert_eq _ _ _) ltac:(lia))
      as (fs'' & Hrun2 & Hlen2 & _ & Hin2).
    { intros i f' Hi Hf'.
      destruct (lookup_lt_is_Some_2 fs i ltac:(lia)) as [f Hf].
      destruct (Hin i f ltac:(lia) Hf) as (v & v' & Hv & Hcv & Hfs').
      assert (f' = set_field_value v' f) as -> by congruence.
      destruct (Hok i f ltac:(lia) Hf) as [He _].
      split; [done|]. exists v. split; [done|]. simpl. by rewrite Hcv. }
    rewrite Hrun2. simpl. rewrite insert_insert_eq.
    replace fs'' with fs'; [done|].
    apply list_eq. intros i.
    destruct (fs !! i) as [f|] eqn:Hf.
    + destruct (Hin i f) as (v & v' & Hv & Hcv & Hfs');
        [apply lookup_lt_Some in Hf; lia | done |].
      destruct (Hin2 i (set_field_value v' f))
        as (w & w' & Hw & Hcw & Hfs''); [apply lookup_lt_Some in Hfs'; lia | done|].
      simpl in Hcw. rewrite Hfs', Hfs''.
      assert (w = v) as -> by congruence. assert (w' = v') as -> by congruence.
      done.
    + apply lookup_ge_None in Hf.
      rewrite (lookup_ge_None_2 fs') by lia.
      by rewrite (lookup_ge_None_2 fs'') by lia.
  - destruct (CallContract c) as [k|] eqn:Hk; mred; [|done].
    destruct (abi_Unpack (abi k) (Method c) b) as [err|out] eqn:Hout; [done|].
    simpl. destruct fs0 as [|f fs0'].
    + simpl. unfold mret, M_ret. intros [= <-].
      rewrite Hc, Ho. simpl. rewrite Hk. mred. by rewrite Hout.
    + simpl. unfold mbind at 1, M_bind at 1, unpack_field. mred. simpl.
      destruct out as [|v out']; simpl; [done|].
      by destruct (ConvertType v (field_Type f)).
Qed.

(** *** The builders *)

(** X18: [Name] and [AllowFailure] can be chained in either order: both
    orders return the receiver and leave the same state, in which the unit
    has the label and is fault-tolerant, its other fields unchanged; on a
    nil unit both orders panic. *)
Theorem builders_commute p n σ :
  (Call_Name p n ≫= Call_AllowFailure) σ
  = (Call_AllowFailure p ≫= λ q, Call_Name q n) σ
  ∧ (∀ c, calls_heap σ !! p = Some c →
          (Call_Name p n ≫= Call_AllowFailure) σ
          = Done p (mkState (<[p := set_CanFail true (set_CallName n c)]>
                               (calls_heap σ))
                            (structs_heap σ) (trace σ)))
  ∧ (calls_heap σ !! p = None →
     (Call_Name p n ≫= Call_AllowFailure) σ = Panic PanicNilCall σ).
Proof.
  unfold mbind, M_bind, Call_Name, Call_AllowFailure.
  destruct (calls_heap σ !! p) as [c|] eqn:Hc; simpl.
  - rewrite !lookup_insert_eq, !insert_insert_eq.
    split; [done|]. split; [|done]. by intros c0 [= <-].
  - split; [done|]. split; done.
Qed.

(** X19: [AllowFailure] on a unit changes the request of a dispatch in
    one way only: the entries of that unit have their fault-tolerance flag
    set; their target and payload, and the other entries, are the same. *)
Theorem AllowFailure_request p σ σ' calls multiCalls :
  Call_AllowFailure p σ = Done p σ' →
  pack_loop 0 calls [] σ = Done (inr multiCalls) σ →
  pack_loop 0 calls [] σ'
  = Done (inr (zip_with (λ q m, if decide (q = p)
                                then mkCall3 (Target m) true (CallData m)
                                else m) calls multiCalls)) σ'.
Proof.
  unfold Call_AllowFailure.
  destruct (calls_heap σ !! p) as [c|] eqn:Hc; [|done]. intros [= <-] Hpack.
  apply Call_request_shape_aux in Hpack.
  apply pack_loop_shape. eexists. split; [reflexivity|].
  induction Hpack as [|q m calls' mc' (cq & k & b & Hq & Hk & Hb & ->) _ IH];
    simpl; constructor; [|exact IH].
  destruct (decide (q = p)) as [->|Hne].
  - assert (cq = c) as -> by congruence.
    exists (set_CanFail true c), k, b. simpl. by rewrite lookup_insert_eq.
  - exists cq, k, b. simpl. by rewrite lookup_insert_ne.
Qed.

Lemma Call_Name_relabel p n σ σ' :
  Call_Name p n σ = Done p σ' → σ' = relabel p n σ.
Proof.
  unfold Call_Name, relabel.
  destruct (calls_heap σ !! p) as [c|] eqn:Hc; [|done]. intros [= <-].
  f_equal. apply map_eq. intros q. destruct (decide (p = q)) as [<-|Hne].
  - by rewrite lookup_insert_eq, lookup_alter_eq, Hc.
  - by rewrite lookup_insert_ne, lookup_alter_ne.
Qed.

Lemma relabel_lookup p n σ q :
  calls_heap (relabel p n σ) !! q
  = (λ c, if decide (p = q) then set_CallName n c else c) <$> calls_heap σ !! q.
Proof.
  simpl. destruct (decide (p = q)) as [<-|Hne].
  - rewrite lookup_alter_eq. by destruct (calls_heap σ !! p).
  - rewrite lookup_alter_ne by done. by destruct (calls_heap σ !! q).
Qed.

Lemma relabel_flagged p n σ q b c :
  flagged q b (if decide (p = q) then set_CallName n c else c) (relabel p n σ)
  = relabel p n (flagged q b c σ).
Proof.
  unfold flagged, relabel. simpl. f_equal. apply map_eq. intros x.
  destruct (decide (p = x)) as [Hpx|Hpx]; destruct (decide (q = x)) as [Hqx|Hqx];
    subst.
  - rewrite lookup_insert_eq, lookup_alter_eq, lookup_insert_eq.
    by rewrite decide_True.
  - rewrite lookup_insert_ne, !lookup_alter_eq by done.
    by rewrite lookup_insert_ne by done.
  - rewrite lookup_insert_eq, lookup_alter_ne, lookup_insert_eq by done.
    by rewrite decide_False.
  - rewrite lookup_insert_ne, !lookup_alter_ne by done.
    by rewrite lookup_insert_ne by done.
Qed.

Lemma Pack_relabel p n q σ :
  Pack q (relabel p n σ) = result_map (relabel p n) (Pack q σ).
Proof.
  unfold Pack. mred. rewrite relabel_lookup.
  destruct (calls_heap σ !! q) as [c|]; simpl; [|done].
  assert (Hsame : ∀ c', c' = (if decide (p = q) then set_CallName n c else c) →
            CallContract c' = CallContract c ∧ Method c' = Method c
            ∧ Inputs c' = Inputs c ∧ CanFail c' = CanFail c).
  { intros c' ->. by destruct (decide (p = q)). }
  destruct (Hsame _ eq_refl) as (-> & -> & -> & _).
  destruct (CallContract c) as [k|]; mred; [|done].
  by destruct (abi_Pack _ _ _).
Qed.

Lemma pack_loop_relabel p n i calls acc σ :
  pack_loop i calls acc (relabel p n σ)
  = result_map (relabel p n) (pack_loop i calls acc σ).
Proof.
  revert i acc. induction calls as [|q calls IH]; intros i acc; [done|].
  simpl. mred. rewrite Pack_relabel.
  pose proof (Pack_final q σ) as HF.
  destruct (Pack q σ) as [[e|b] σ1|x σ1] eqn:EP; simpl in HF; subst σ1;
    cbn [result_map]; [done| |done].
  destruct (Pack_inv _ _ _ _ EP) as (_ & c & k & Hc & Hk & _).
  rewrite relabel_lookup, Hc. cbn [fmap option_fmap option_map].
  replace (CallContract (if decide (p = q) then set_CallName n c else c))
    with (CallContract c) by by destruct (decide (p = q)).
  replace (CanFail (if decide (p = q) then set_CallName n c else c))
    with (CanFail c) by by destruct (decide (p = q)).
  rewrite Hk. apply IH.
Qed.

Lemma unpack_field_relabel p n d out i σ :
  unpack_field ConvertType d out i (relabel p n σ)
  = result_map (relabel p n) (unpack_field ConvertType d out i σ).
Proof.
  unfold unpack_field. mred. simpl.
  destruct (fields_of (structs_heap σ) d !! i) as [f|]; [|done].
  destruct (out !! i) as [v|]; [|done].
  destruct (ConvertType v (field_Type f)); [|done].
  destruct d as [l|fs]; [|done]. by destruct (field_exported f).
Qed.

Lemma unpack_fields_relabel p n d out idx σ :
  unpack_fields ConvertType d out idx (relabel p n σ)
  = result_map (relabel p n) (unpack_fields ConvertType d out idx σ).
Proof.
  revert σ. induction idx as [|i idx IH]; intros σ; [done|].
  simpl. unfold mbind, M_bind. rewrite unpack_field_relabel.
  destruct (unpack_field ConvertType d out i σ) as [[] σ1|x σ1]; simpl; [apply IH | done].
Qed.

Lemma Unpack_relabel p n q b σ :
  Unpack q b (relabel p n σ) = result_map (relabel p n) (Unpack q b σ).
Proof.
  unfold Unpack. mred. rewrite relabel_lookup.
  destruct (calls_heap σ !! q) as [c|]; simpl; [|done].
  replace (Outputs (if decide (p = q) then set_CallName n c else c))
    with (Outputs c) by by destruct (decide (p = q)).
  replace (CallContract (if decide (p = q) then set_CallName n c else c))
    with (CallContract c) by by destruct (decide (p = q)).
  replace (Method (if decide (p = q) then set_CallName n c else c))
    with (Method c) by by destruct (decide (p = q)).
  destruct (struct_of (structs_heap σ) (Outputs c)) as [d|]; [|done].
  destruct (CallContract c) as [k|]; mred; [|done].
  destruct (abi_Unpack (abi k) (Method c) b) as [err|out]; [done|].
  simpl. rewrite unpack_fields_relabel.
  by destruct (unpack_fields ConvertType d out _ σ) as [[] σ1|x σ1].
Qed.

Lemma demux_loop_relabel p n calls i results σ :
  demux_loop calls i results (relabel p n σ)
  = result_map (relabel p n) (demux_loop calls i results σ).
Proof.
  revert i σ. induction results as [|r rest IH]; intros i σ; [done|].
  rewrite !demux_loop_cons.
  destruct (calls !! i) as [q|]; [|done].
  rewrite relabel_lookup.
  destruct (calls_heap σ !! q) as [c|]; simpl; [|done].
  rewrite !relabel_flagged.
  destruct (Success r); [|apply IH].
  rewrite Unpack_relabel.
  destruct (Unpack q (ReturnData r) _) as [[e|] σ2|x σ2]; simpl;
    [done | apply IH | done].
Qed.

(** X20: the label set by [Name] plays no part in a dispatch: [Call] on
    a state where a unit has been relabelled has the same outcome, return
    value or panic, and leaves the same state up to that label. *)
Theorem Name_is_only_a_label opts calls p n σ :
  Caller_Call opts calls (relabel p n σ)
  = result_map (relabel p n) (Caller_Call opts calls σ)
  ∧ ∀ σ', Call_Name p n σ = Done p σ' → σ' = relabel p n σ.
Proof.
  split; [|intros σ'; apply Call_Name_relabel].
  unfold Caller_Call. unfold mbind at 1 4, M_bind at 1 4.
  rewrite pack_loop_relabel.
  destruct (pack_loop 0 calls [] σ) as [[e|mc] σ1|x σ1]; simpl; [done| |done].
  unfold mbind at 1 3, M_bind at 1 3, aggregate3. simpl.
  destruct (Aggregate3 _ _ _) as [err|results]; [done|].
  unfold mbind, M_bind.
  change (mkState (alter (set_CallName n) p (calls_heap σ1)) (structs_heap σ1)
                  (trace σ1 ++ [EvAggregate3 opts mc]))
    with (relabel p n (sent opts mc σ1)).
  rewrite demux_loop_relabel. fold (sent opts mc σ1).
  by destruct (demux_loop calls 0 results (sent opts mc σ1)).
Qed.

End PropertiesMore.

(** ** Building a contract: properties *)

Section ConstructionMore.
Context {value Address MetaData : Type}.
Context (abi_JSON : string → string + @ABI value).
Context (GetAbi : MetaData → option (@ABI value) * option string).
Context (zeroAddress : Address).

Abbreviation ContractOptions := (@ContractOptions value Address).
Abbreviation ContractOption := (@ContractOption value Address).
Abbreviation WithABIJSON := (@WithABIJSON value Address abi_JSON).
Abbreviation WithABIMeta := (@WithABIMeta value Address MetaData GetAbi).
Abbreviation NewContract := (@NewContract value Address zeroAddress).
Abbreviation NewContract2 := (@NewContract2 value Address MetaData GetAbi zeroAddress).

Implicit Types (o : ContractOptions) (fns pre post : list ContractOption).

Lemma apply_options_app pre post o :
  apply_options (pre ++ post) o = apply_options pre o ≫= apply_options post.
Proof.
  revert o. induction pre as [|fn pre IH]; intros o; [done|].
  simpl. destruct (fn o) as [o'|]; simpl; [apply IH | done].
Qed.

Lemma apply_keeps_err fns o :
  Forall keeps_err fns →
  ∃ o', apply_options fns o = Some o' ∧ opt_err o' = opt_err o.
Proof.
  intros H. revert o. induction H as [|fn fns Hfn _ IH]; intros o.
  - by exists o.
  - destruct (Hfn o) as (o1 & Ho1 & He1). simpl. rewrite Ho1. simpl.
    destruct (IH o1) as (o' & Ho' & He'). exists o'. split; [done | congruence].
Qed.

Lemma apply_keeps_abi fns o :
  Forall keeps_abi fns →
  ∃ o', apply_options fns o = Some o'
        ∧ opt_abi o' = opt_abi o ∧ opt_err o' = opt_err o.
Proof.
  intros H. revert o. induction H as [|fn fns Hfn _ IH]; intros o.
  - by exists o.
  - destruct (Hfn o) as (o1 & Ho1 & Ha1 & He1). simpl. rewrite Ho1. simpl.
    destruct (IH o1) as (o' & Ho' & Ha' & He'). exists o'.
    split; [done|]. split; congruence.
Qed.

(** [WithAddress] leaves the ABI and the error alone, [WithABI] the
    error. *)
Lemma WithAddress_keeps_abi (a : Address) : keeps_abi (WithAddress (value:=value) a).
Proof. intros o. eexists. by split. Qed.

Lemma WithABI_keeps_err (a : option (@ABI value)) :
  keeps_err (WithABI (Address:=Address) a).
Proof. intros o. eexists. by split. Qed.

(** X21: a contract cannot be built without an interface: when no option
    sets the ABI, as with no option at all or with [WithAddress] only,
    [NewContract] returns the error [abi is required]. *)
Theorem NewContract_requires_abi fns :
  Forall keeps_abi fns →
  NewContract fns = Some (inl "abi is required").
Proof.
  intros H. unfold NewContract.
  destruct (apply_keeps_abi fns (mkContractOptions None zeroAddress None) H)
    as (o' & -> & Ha & He). simpl in *. by rewrite He, Ha.
Qed.

(** X22: the error of a description that does not parse is not cleared
    by a later [WithABI] or [WithAddress]: when the options after a failing
    [WithABIJSON] leave [err] alone, [NewContract] returns the parse error,
    wrapped, even if one of them has set a valid ABI. *)
Theorem NewContract_error_sticks pre post json e o :
  apply_options pre (mkContractOptions None zeroAddress None) = Some o →
  abi_JSON json = inl e →
  Forall keeps_err post →
  NewContract (pre ++ WithABIJSON json :: post)
  = Some (inl ("failed to parse abi: " +:+ e)).
Proof.
  intros Hpre Hjson Hpost. unfold NewContract.
  rewrite apply_options_app, Hpre. simpl.
  destruct (apply_keeps_err post
              (mkContractOptions (ParseABI abi_JSON json).1 (opt_address o)
                                 (ParseABI abi_JSON json).2) Hpost)
    as (o' & -> & He). simpl in *. rewrite He.
  unfold ParseABI. by rewrite Hjson.
Qed.

(** X23: a description that parses replaces whatever the options before
    it did to the ABI and clears their error: when the options after a
    [WithABIJSON] that parses leave the ABI and the error alone,
    [NewContract] returns a contract with the parsed interface and the
    address the options end with. *)
Theorem NewContract_last_parse_wins pre post json a o :
  apply_options pre (mkContractOptions None zeroAddress None) = Some o →
  abi_JSON json = inr a →
  Forall keeps_abi post →
  ∃ o', apply_options (pre ++ WithABIJSON json :: post)
          (mkContractOptions None zeroAddress None) = Some o'
        ∧ NewContract (pre ++ WithABIJSON json :: post)
          = Some (inr (mkContract a (opt_address o'))).
Proof.
  intros Hpre Hjson Hpost. unfold NewContract.
  rewrite apply_options_app, Hpre. simpl.
  destruct (apply_keeps_abi post
              (mkContractOptions (ParseABI abi_JSON json).1 (opt_address o)
                                 (ParseABI abi_JSON json).2) Hpost)
    as (o' & -> & Ha & He). simpl in *. exists o'. split; [done|].
  rewrite He, Ha. unfold ParseABI. by rewrite Hjson.
Qed.

(** X24: [NewContract2] panics on nil metadata, returns the error of
    [GetAbi] as it is when there is one, returns [abi is required] when
    [GetAbi] gives neither an interface nor an error, and otherwise
    returns a contract with that interface and the address given. *)
Theorem NewContract2_cases (abiMeta : option MetaData) (a : Address) :
  NewContract2 abiMeta a
  = match abiMeta with
    | None => None
    | Some m =>
        Some (match GetAbi m with
              | (_, Some e) => inl e
              | (None, None) => inl "abi is required"
              | (Some ab, None) => inr (mkContract ab a)
              end)
    end.
Proof.
  destruct abiMeta as [m|]; [|done].
  unfold NewContract2, NewContract. simpl.
  by destruct (GetAbi m) as [[ab|] [e|]].
Qed.

End ConstructionMore.

(** ** Building a caller: properties *)

Section ConnectMore.
Context {Ctx Client Address Interface : Type}.
Context (Dial : string → option Client * option string).
Context (DialContext : Ctx → string → option Client * option string).
Context (HexToAddress : string → Address).
Context (NewMulticallCaller : Address → option Client → string + Interface).

Abbreviation Options := (@Options Ctx Client).
Abbreviation Option_ := (@Option_ Ctx Client).
Abbreviation New := (@New Ctx Client Address Interface Dial DialContext
                          HexToAddress NewMulticallCaller).
Abbreviation bind_caller := (@bind_caller Ctx Client Address Interface
                                          HexToAddress NewMulticallCaller).

Implicit Types (o : Options) (fns pre post : list Option_).

Lemma foldl_keeps {A} (proj : Options → A) fns o :
  Forall (λ fn : Option_, ∀ o, proj (fn o) = proj o) fns →
  proj (foldl (λ o fn, fn o) o fns) = proj o.
Proof.
  intros H. revert o. induction H as [|fn fns Hfn _ IH]; intros o; [done|].
  simpl. by rewrite IH, Hfn.
Qed.

(** X25: without a client and without an endpoint there is no caller:
    when no option sets the client or the RPC URL, as with no option at all
    or with [WithContractAddress] only, [New] returns the error [rpcURL is
    required], whatever dialling would do. *)
Theorem New_requires_endpoint fns :
  Forall keeps_client fns → Forall keeps_rpcURL fns →
  New fns = inl "rpcURL is required".
Proof.
  intros Hc Hu. unfold New, configure.
  rewrite (foldl_keeps client fns _ Hc), (foldl_keeps rpcURL fns _ Hu). done.
Qed.

(** X26: a client that was given is used as it is: when [WithClient]
    with a non-nil client is followed only by options that leave the
    client alone, [New] binds the caller over that client without dialling,
    at the address the options end with, which is [DefaultAddress] when no
    option sets the address; an error of the binding is returned as it
    is. *)
Theorem New_with_client pre post (cl : Client) :
  Forall keeps_client post →
  New (pre ++ WithClient (Some cl) :: post)
  = match NewMulticallCaller
            (HexToAddress (contractAddress
                             (configure (pre ++ WithClient (Some cl) :: post))))
            (Some cl) with
    | inl err => inl err
    | inr c => inr (mkCaller c)
    end
  ∧ (Forall keeps_contractAddress (pre ++ WithClient (Some cl) :: post) →
     contractAddress (configure (pre ++ WithClient (Some cl) :: post))
     = DefaultAddress).
Proof.
  intros Hpost. split.
  - unfold New, bind_caller.
    assert (Hcl : client (configure (pre ++ WithClient (Some cl) :: post)) = Some cl).
    { unfold configure. rewrite foldl_app. simpl.
      by rewrite (foldl_keeps client post _ Hpost). }
    by rewrite Hcl.
  - intros Haddr. unfold configure.
    by rewrite (foldl_keeps contractAddress _ _ Haddr).
Qed.

(** X27: without a client [New] dials the endpoint, and always with
    [Dial]: when no option sets the client or the context, as with
    [WithRPCURL] and [WithContractAddress], and the RPC URL the options
    end with is not empty, [New] returns the error of [Dial] as it is when
    it fails, and otherwise binds the caller over the dialled client;
    [DialContext] is never used. *)
Theorem New_dials fns :
  Forall keeps_client fns → Forall keeps_ctx fns →
  rpcURL (configure fns) ≠ "" →
  New fns
  = match Dial (rpcURL (configure fns)) with
    | (_, Some err) => inl err
    | (cl, None) =>
        match NewMulticallCaller
                (HexToAddress (contractAddress (configure fns))) cl with
        | inl err => inl err
        | inr c => inr (mkCaller c)
        end
    end.
Proof.
  intros Hc Hx Hu. unfold New, bind_caller.
  assert (Hcl : client (configure fns) = None)
    by (unfold configure; by rewrite (foldl_keeps client fns _ Hc)).
  assert (Hctx : ctx (configure fns) = None)
    by (unfold configure; by rewrite (foldl_keeps ctx fns _ Hx)).
  rewrite Hcl, Hctx.
  destruct (String.eqb_spec (rpcURL (configure fns)) ""); [done|].
  by destruct (Dial (rpcURL (configure fns))) as [cl [err|]].
Qed.

End ConnectMore.

(** ** The further properties on the small instance *)

Section ToyRunsMore.
Import Toy Toy2.

Lemma Call_nil_unit_witness :
  Caller_Call convert remote 5%nat [1; 9]%positive st3 = Panic PanicNilCall st3.
Proof.
  refine (proj1 (Call_nil_unit convert remote 5%nat [1; 9]%positive st3
                   1%nat 9%positive _ _) _).
  - reflexivity.
  - intros j q Hj Hq. destruct j as [|j]; [|lia].
    injection Hq as <-. eexists. vm_compute. reflexivity.
  - reflexivity.
Defined.

Lemma CallChunked_returns_input_witness :
  ∃ r e σ', CallChunked convert remote 1%nat 2 0 units st3 = Done (r, e) σ'
            ∧ r = units.
Proof.
  set (out := CallChunked convert remote 1%nat 2 0 units st3).
  exists units,
    (Some "call chunk [1] failed: multicall failed: execution reverted"),
    (final_state out).
  assert (H : out = Done (units,
                Some "call chunk [1] failed: multicall failed: execution reverted")
                (final_state out)) by (vm_compute; reflexivity).
  split; [exact H|].
  exact (proj1 (CallChunked_returns_input convert remote 1%nat 2 0 units st3
                  _ _ _ H)).
Defined.

Lemma CallChunked_single_chunk_witness :
  CallChunked convert remote 5%nat 0 3 units st3
  = match Caller_Call convert remote 5%nat units st3 with
    | Done (r, None) σ' => Done (r, None) σ'
    | Done (_, Some e) σ' =>
        Done (units, Some ("call chunk [0] failed: " +:+ e)) σ'
    | Panic x σ' => Panic x σ'
    end.
Proof.
  apply (CallChunked_single_chunk convert remote 5%nat 0 3 units st3).
  - discriminate.
  - left. lia.
Defined.


Lemma units_NoDup : NoDup units.
Proof.
  unfold units. repeat constructor; intros Hin;
    apply list_elem_of_In in Hin; simpl in Hin; intuition discriminate.
Qed.

Lemma Call_flags_reflect_response_witness :
  ∃ σ', Caller_Call convert remote 5%nat units (three u2_tolerant)
        = Done (units, None) σ'
        ∧ Failed <$> calls_heap σ' !! 2%positive = Some true
        ∧ Failed <$> calls_heap σ' !! 3%positive = Some false.
Proof.
  set (σ := three u2_tolerant).
  set (σ' := final_state (Caller_Call convert remote 5%nat units σ)).
  exists σ'.
  assert (Hcall : Caller_Call convert remote 5%nat units σ = Done (units, None) σ')
    by (vm_compute; reflexivity).
  pose proof (Call_flags_reflect_response convert remote 5%nat units σ
                (request u2_tolerant) (response u2_tolerant) units σ'
                units_NoDup ltac:(split; vm_compute; reflexivity) Hcall) as H.
  split; [exact Hcall|]. split.
  - destruct (H 1%nat (mkResult false [byte_of_Z 20]) eq_refl) as (p & Hp & Hf).
    injection Hp as <-. exact Hf.
  - destruct (H 2%nat (mkResult true [byte_of_Z 30]) eq_refl) as (p & Hp & Hf).
    injection Hp as <-. exact Hf.
Defined.

Lemma toy_ready (p l : loc) (v : Z) (σ : @state Z ty nat nat) :
  calls_heap σ !! p = Some (unit_ "balanceOf" [v] l false) →
  structs_heap σ !! l = Some [int_field 0] →
  unit_ready convert σ p (mkResult true [byte_of_Z v]) l [int_field 0]
             [Z_of_byte (byte_of_Z v)].
Proof.
  intros Hc Hl. exists (unit_ "balanceOf" [v] l false), token.
  split; [exact Hc|]. split; [reflexivity|]. split; [exact Hl|].
  split; [reflexivity|]. split; [reflexivity|]. split; [simpl; lia|].
  intros i f w Hf Hw. destruct i as [|i]; [|done].
  injection Hf as <-. split; [reflexivity | by eexists].
Qed.

Lemma Call_all_succeed_witness :
  ∃ σ', Caller_Call convert remote 5%nat units st3 = Done (units, None) σ'
        ∧ Failed <$> calls_heap σ' !! 2%positive = Some false
        ∧ ∃ fs', structs_heap σ' !! 12%positive = Some fs'
                 ∧ fs' !! 0%nat = Some (int_field 20).
Proof.
  destruct (Call_all_succeed convert remote 5%nat units st3 (request u2)
              (response u2) [11; 12; 13]%positive) as (σ' & Hcall & Hpost).
  - exact units_NoDup.
  - repeat constructor; intros Hin; apply list_elem_of_In in Hin; simpl in Hin;
      intuition discriminate.
  - split; vm_compute; reflexivity.
  - intros j r Hj. destruct j as [|[|[|j]]]; [| | |done]; injection Hj as <-;
      (split; [reflexivity|]).
    + exists 1%positive, 11%positive, [int_field 0], [10].
      split; [reflexivity|]. split; [reflexivity|].
      by apply (toy_ready 1%positive 11%positive 10 st3).
    + exists 2%positive, 12%positive, [int_field 0], [20].
      split; [reflexivity|]. split; [reflexivity|].
      by apply (toy_ready 2%positive 12%positive 20 st3).
    + exists 3%positive, 13%positive, [int_field 0], [30].
      split; [reflexivity|]. split; [reflexivity|].
      by apply (toy_ready 3%positive 13%positive 30 st3).
  - exists σ'. split; [exact Hcall|].
    destruct (Hpost 1%nat (mkResult true [byte_of_Z 20]) 2%positive 12%positive
                [int_field 0] [20] eq_refl eq_refl
                (toy_ready 2%positive 12%positive 20 st3 eq_refl eq_refl))
      as (Hflag & fs' & Hfs' & _ & Hass).
    split; [exact Hflag|]. exists fs'. split; [exact Hfs'|].
    destruct (Hass 0%nat (int_field 0) eq_refl) as (v & v' & Hv & Hc & Hf).
    injection Hv as <-. injection Hc as <-. exact Hf.
Defined.

Lemma Unpack_short_output_witness :
  ∃ fs', Unpack convert 1%positive [byte_of_Z 10] st_short
         = Panic (PanicOutIndex 1 1)
                 (mkState (calls_heap st_short)
                          (<[11%positive := fs']> (structs_heap st_short))
                          (trace st_short))
         ∧ fs' !! 0%nat = Some (int_field 10)
         ∧ fs' !! 2%nat = Some (int_field 0).
Proof.
  destruct (Unpack_short_output convert 1%positive [byte_of_Z 10] st_short
              (unit_ "balanceOf" [10] 11%positive false) 11%positive
              [int_field 0; int_field 0; int_field 0] token [10]
              eq_refl eq_refl eq_refl eq_refl eq_refl)
    as (fs' & Hrun & _ & Hin & Hout).
  - simpl. lia.
  - intros i f v Hf Hv. destruct i as [|i]; [|done].
    injection Hf as <-. split; [reflexivity | by eexists].
  - exists fs'. split; [exact Hrun|]. split.
    + destruct (Hin 0%nat (int_field 0) ltac:(simpl; lia) eq_refl)
        as (v & v' & Hv & Hc & Hf).
      injection Hv as <-. injection Hc as <-. exact Hf.
    + rewrite (Hout 2%nat ltac:(simpl; lia)). reflexivity.
Defined.

Lemma Unpack_by_value_witness :
  Unpack convert 1%positive [byte_of_Z 10] st_value = Panic PanicSet st_value.
Proof.
  exact (Unpack_by_value convert 1%positive [byte_of_Z 10] st_value
           (mkCall "" (Some token) "balanceOf" [10] (OutStruct [int_field 0])
                   false false)
           [int_field 0] token [10] eq_refl eq_refl eq_refl eq_refl).
Defined.

Lemma Unpack_idempotent_witness :
  ∃ σ1, Unpack convert 1%positive [byte_of_Z 10] st3 = Done None σ1
        ∧ Unpack convert 1%positive [byte_of_Z 10] σ1 = Done None σ1.
Proof.
  set (σ1 := final_state (Unpack convert 1%positive [byte_of_Z 10] st3)).
  exists σ1.
  assert (H : Unpack convert 1%positive [byte_of_Z 10] st3 = Done None σ1)
    by (vm_compute; reflexivity).
  split; [exact H|].
  exact (Unpack_idempotent convert 1%positive [byte_of_Z 10] st3 σ1 H).
Defined.

Lemma AllowFailure_request_witness :
  ∃ σ', Call_AllowFailure 2%positive st3 = Done 2%positive σ'
        ∧ pack_loop 0 units [] σ' = Done (inr (request u2_tolerant)) σ'.
Proof.
  set (σ' := final_state (Call_AllowFailure 2%positive st3)).
  exists σ'.
  assert (H : Call_AllowFailure 2%positive st3 = Done 2%positive σ')
    by reflexivity.
  split; [exact H|].
  exact (AllowFailure_request 2%positive st3 σ' units (request u2) H
           ltac:(vm_compute; reflexivity)).
Defined.

Lemma NewContract_requires_abi_witness :
  NewContract (value:=Z) 0%nat [WithAddress 5%nat; WithAddress 6%nat]
  = Some (inl "abi is required").
Proof.
  apply (NewContract_requires_abi (value:=Z) 0%nat).
  repeat constructor; apply WithAddress_keeps_abi.
Defined.

Lemma NewContract_error_sticks_witness :
  NewContract 0%nat [WithABIJSON parse "bad"; WithABI (Some codec)]
  = Some (inl "failed to parse abi: invalid character").
Proof.
  apply (NewContract_error_sticks parse 0%nat [] [WithABI (Some codec)]
           "bad" "invalid character" (mkContractOptions None 0%nat None)).
  - reflexivity.
  - reflexivity.
  - repeat constructor. apply WithABI_keeps_err.
Defined.

Lemma NewContract_last_parse_wins_witness :
  NewContract 0%nat [WithABIJSON parse "bad"; WithABIJSON parse "good";
                     WithAddress 7%nat]
  = Some (inr token).
Proof.
  destruct (NewContract_last_parse_wins parse 0%nat
              [WithABIJSON parse "bad"] [WithAddress 7%nat] "good" codec
              (mkContractOptions None 0%nat (Some "failed to parse abi: invalid character")))
    as (o' & Ho' & Hnew).
  - reflexivity.
  - reflexivity.
  - repeat constructor. apply WithAddress_keeps_abi.
  - simpl in Ho'. injection Ho' as <-. exact Hnew.
Defined.

Lemma New_requires_endpoint_witness :
  New dial dial_context hex new_caller [WithContractAddress "0x01"]
  = inl "rpcURL is required".
Proof.
  apply (New_requires_endpoint dial dial_context hex new_caller).
  - repeat constructor.
  - repeat constructor.
Defined.

Lemma New_with_client_witness :
  New dial dial_context hex new_caller [WithRPCURL "nowhere"; WithClient (Some 3%nat)]
  = inr (mkCaller (42%nat, Some 3%nat)).
Proof.
  exact (proj1 (New_with_client dial dial_context hex new_caller
                  [WithRPCURL "nowhere"] [] 3%nat ltac:(constructor))).
Defined.

Lemma New_dials_witness :
  New dial dial_context hex new_caller [WithRPCURL "node"]
  = inr (mkCaller (42%nat, Some 1%nat))
  ∧ New dial dial_context hex new_caller [WithRPCURL "nowhere"]
    = inl "dial failed".
Proof.
  split.
  - apply (New_dials dial dial_context hex new_caller [WithRPCURL "node"]).
    + repeat constructor.
    + repeat constructor.
    + discriminate.
  - apply (New_dials dial dial_context hex new_caller [WithRPCURL "nowhere"]).
    + repeat constructor.
    + repeat constructor.
    + discriminate.
Defined.

End ToyRunsMore.
